(** * SimpleEditor: path tree builder, document store and shell handshake

    A shallow embedding of [src/components/SimpleEditor.tsx]:
    - [toFileTree], which turns the flat record of editor documents into
      the nested [FileSystemTree] mounted into the WebContainer;
    - the [onChange] and [onScroll] handlers of [useSimpleEditor], acting
      on the [documents] state;
    - the inner [run] function, which spawns [jsh], watches its output for
      the interactive OSC and gates the terminal input on it.

    JavaScript strings are modelled by [string] (code units below 256),
    plain objects used as dictionaries by [gmap string _] together with
    what their prototype contributes, [undefined] by [None]. *)

From Stdlib Require Import Ascii String.
From stdpp Require Import gmap strings list fin_maps.

Local Open Scope string_scope.
Local Open Scope list_scope.
Local Open Scope stdpp_scope.

(** ** Characters and strings of the source *)

Module Chars.

(** [\x1b], [\x07] and [\n] have no literal spelling. *)
Definition ESC : ascii := Ascii.ascii_of_nat 27.
Definition BEL : ascii := Ascii.ascii_of_nat 7.
Definition LF : ascii := Ascii.ascii_of_nat 10.
Definition SLASH : ascii := Ascii.ascii_of_nat 47.

End Chars.

(** ** Documents *)

(** Modelled from the spec: the [ScrollPosition] type is declared in
    [@tutorialkit/components-react/core], outside this repository; the spec
    describes it as a pair [{line, column}].  The handlers below only store
    the value, they never inspect it. *)
Record ScrollPosition : Type := mkScroll { line : Z; column : Z }.

(** An [EditorDocument] object as it exists at run time: each property is
    either present or absent ([None], read as [undefined]).  The declared
    type makes [filePath], [loading] and [value] mandatory and [scroll]
    optional; objects built by spreading [undefined] (see [onChange]) can
    lack the mandatory ones. *)
Record EditorDocument : Type := mkDoc {
  filePath : option string;
  loading : option bool;
  value : option string;
  scroll : option ScrollPosition;
}.

(** The object [{}]. *)
Definition emptyDocument : EditorDocument :=
  {| filePath := None; loading := None; value := None; scroll := None |}.

(** A document as the source writes them: [filePath], [loading: false] and
    [value], no [scroll]. *)
Definition document (path content : string) : EditorDocument :=
  {| filePath := Some path; loading := Some false; value := Some content;
     scroll := None |}.

(** ** The path tree builder *)

Module PathTree.

(** What a directory object inherits from.  Every tree is created by an
    object literal, so it starts with [Object.prototype]; the assignment
    [currentTree[name] = {file: ...}] with [name] equal to ["__proto__"]
    runs the [__proto__] setter and replaces the prototype by that file
    node object. *)
Inductive Prototype : Type :=
| ObjectPrototype
| FileNodePrototype (contents : option string).

(** [FileSystemTree] and its nodes ([@webcontainer/api]): a tree maps
    names to nodes, a node is [{file: {contents}}] or
    [{directory: tree}]. *)
Inductive FileSystemTree : Type :=
| Tree (proto : Prototype) (own : gmap string TreeNode)
with TreeNode : Type :=
| FileNode (contents : option string)
| DirectoryNode (directory : FileSystemTree).

Definition proto (t : FileSystemTree) : Prototype :=
  match t with Tree p _ => p end.

Definition own (t : FileSystemTree) : gmap string TreeNode :=
  match t with Tree _ o => o end.

(** [{}] *)
Definition emptyTree : FileSystemTree := Tree ObjectPrototype ∅.

(** The property names of [Object.prototype]. *)
Definition objectPrototypeNames : list string :=
  [ "constructor"; "__defineGetter__"; "__defineSetter__"; "hasOwnProperty";
    "__lookupGetter__"; "__lookupSetter__"; "isPrototypeOf";
    "propertyIsEnumerable"; "toString"; "valueOf"; "__proto__";
    "toLocaleString" ].

Definition PROTO : string := "__proto__".

(** Names a tree object answers without owning them. *)
Definition inherited (p : Prototype) (name : string) : bool :=
  bool_decide (name ∈ objectPrototypeNames)
  || match p with
     | ObjectPrototype => false
     | FileNodePrototype _ => bool_decide (name = "file")
     end.

(** The result of the read [currentTree[name]]. *)
Inductive PropertyRead : Type :=
| Undefined
    (* no such property: falsy *)
| Node (n : TreeNode)
    (* an own property, always a node object stored by the builder *)
| Foreign.
    (* an inherited value (a built-in function, the prototype itself or
       the [file] object of a prototype node): truthy, and its
       [directory] property is [undefined] *)

Definition get (t : FileSystemTree) (name : string) : PropertyRead :=
  if bool_decide (name = PROTO) then Foreign
  else match own t !! name with
       | Some n => Node n
       | None => if inherited (proto t) name then Foreign else Undefined
       end.

(** [currentTree[name] = { file: { contents } }] *)
Definition setFile (t : FileSystemTree) (name : string)
    (contents : option string) : FileSystemTree :=
  if bool_decide (name = PROTO) then Tree (FileNodePrototype contents) (own t)
  else Tree (proto t) (<[name := FileNode contents]> (own t)).

(** [currentTree[name]] holds the directory node whose [directory] object
    is [d]: either the assignment [currentTree[name] = folder] of a fresh
    folder, or the effect on [currentTree] of the later in-place updates
    of [folder.directory].  It is only reached for names whose read was
    not [Foreign], so never for ["__proto__"]. *)
Definition setDirectory (t : FileSystemTree) (name : string)
    (d : FileSystemTree) : FileSystemTree :=
  Tree (proto t) (<[name := DirectoryNode d]> (own t)).

(** [filePath.split('/')] *)
Fixpoint split (s : string) : list string :=
  match s with
  | EmptyString => [EmptyString]
  | String c s' =>
      if bool_decide (c = Chars.SLASH) then EmptyString :: split s'
      else match split s' with
           | [] => [String c EmptyString]
           | w :: ws => String c w :: ws
           end
  end.

(** [filePath.split('/').filter((segment) => segment)]: the empty string
    is the only falsy string. *)
Definition segments (filePath : string) : list string :=
  List.filter (λ segment, negb (bool_decide (segment = EmptyString)))
    (split filePath).

(** The inner loop [for (let i = 0; i < segments.length; ++i)], started
    with [currentTree] bound to a tree object; the result is that object
    after the loop, or [None] when the loop throws.

    With [folder] a file node or a foreign value, [folder.directory] is
    [undefined]; this happens only when [i] is not the last index, so the
    next iteration indexes [undefined] and throws a [TypeError]. *)
Fixpoint walk (segs : list string) (contents : option string)
    (currentTree : FileSystemTree) : option FileSystemTree :=
  match segs with
  | [] => Some currentTree
  | name :: rest =>
      match rest with
      | [] => Some (setFile currentTree name contents)
      | _ :: _ =>
          match get currentTree name with
          | Undefined =>
              d ← walk rest contents emptyTree;
              Some (setDirectory currentTree name d)
          | Node (DirectoryNode directory) =>
              d ← walk rest contents directory;
              Some (setDirectory currentTree name d)
          | Node (FileNode _) | Foreign => None
          end
      end
  end.

(** The record [files] is given by its own enumerable properties in the
    order [for ... in] visits them. *)
Definition Files : Type := list (string * EditorDocument).

(** One iteration of [for (const filePath in files)]. *)
Definition addFile (root : option FileSystemTree)
    (entry : string * EditorDocument) : option FileSystemTree :=
  r ← root; walk (segments entry.1) (value entry.2) r.

(** [toFileTree]; [None] stands for the [TypeError] escaping the call. *)
Definition toFileTree (files : Files) : option FileSystemTree :=
  foldl addFile (Some emptyTree) files.

(** *** Reading a tree *)

(** The tree object the loop moves into at a directory segment [name]:
    a fresh [{}] when nothing is there, the stored directory when there
    is one, none when [folder.directory] is [undefined]. *)
Definition descend (t : FileSystemTree) (name : string)
    : option FileSystemTree :=
  match get t name with
  | Undefined => Some emptyTree
  | Node (DirectoryNode directory) => Some directory
  | Node (FileNode _) | Foreign => None
  end.

(** The node found by following own properties along [path]. *)
Fixpoint entryAt (path : list string) (t : FileSystemTree)
    : option TreeNode :=
  match path with
  | [] => None
  | name :: rest =>
      match get t name with
      | Node n =>
          match rest with
          | [] => Some n
          | _ :: _ =>
              match n with
              | DirectoryNode directory => entryAt rest directory
              | FileNode _ => None
              end
          end
      | Undefined | Foreign => None
      end
  end.

(** *** The loop, one segment at a time *)

(** The node the loop leaves under [name], when [name] is followed by
    the segments [rest]. *)
Definition nodeAfter (name : string) (rest : list string)
    (contents : option string) (t : FileSystemTree) : option TreeNode :=
  match rest with
  | [] => Some (FileNode contents)
  | _ :: _ =>
      d0 ← descend t name;
      d ← walk rest contents d0;
      Some (DirectoryNode d)
  end.

Definition setNode (t : FileSystemTree) (name : string) (n : TreeNode)
    : FileSystemTree :=
  Tree (proto t) (<[name := n]> (own t)).

(** *** Collisions *)

(** The path [p] names a file or directory and [q] is that path or lies
    below it. *)
Definition clash (p q : list string) : Prop := p ≠ [] ∧ p `prefix_of` q.

(** Some key's path is a proper prefix of another key's path: the prefix
    is used both as a file and as a directory. *)
Definition usedAsFileAndDirectory (files : Files) : Prop :=
  ∃ k1 k2 rest, k1 ∈ files.*1 ∧ k2 ∈ files.*1 ∧
    segments k1 ≠ [] ∧ rest ≠ [] ∧ segments k2 = segments k1 ++ rest.

(** No segment is ["__proto__"], and no two different keys name the same
    path or a path and something below it. *)
Definition separated (files : Files) : Prop :=
  Forall (λ k1,
    (PROTO ∉ segments k1) ∧
    Forall (λ k2, k1 = k2 ∨ ¬ clash (segments k1) (segments k2)) files.*1)
    files.*1.

#[global] Instance clash_dec p q : Decision (clash p q).
Proof. unfold clash. apply _. Defined.

#[global] Instance separated_dec files : Decision (separated files).
Proof. unfold separated. apply _. Defined.

(** [separated], key by key. *)
Definition apart (files : Files) : Prop :=
  (∀ k, k ∈ files.*1 → PROTO ∉ segments k) ∧
  (∀ k1 k2, k1 ∈ files.*1 → k2 ∈ files.*1 → k1 ≠ k2 →
     ¬ clash (segments k1) (segments k2)).

(** The mapping of the spec's example, and the sample project of the
    source with its contents abbreviated. *)
Definition exampleFiles : Files :=
  [ ("/src/index.js", document "/src/index.js" "A");
    ("/pkg.json", document "/pkg.json" "B") ].

Definition sampleFiles : Files :=
  [ ("/src/index.js", document "/src/index.js" "js");
    ("/src/index.html", document "/src/index.html" "html");
    ("/src/assets/logo.svg", document "/src/assets/logo.svg" "svg");
    ("/package.json", document "/package.json" "json") ].

End PathTree.

(** ** The document store of [useSimpleEditor] *)

Module Store.

(** The state cell [documents] ([useState<Record<string, EditorDocument>>])
    holds an object whose own properties are the documents. *)
Abbreviation Documents := (gmap string EditorDocument).

(** [{ ...prevDocuments[selectedFile] }]: the own enumerable properties of
    the document, none when the read gives [undefined] (or an inherited
    built-in, which has no enumerable property of its own). *)
Definition spread (prevDocuments : Documents) (selectedFile : string)
    : EditorDocument :=
  default emptyDocument (prevDocuments !! selectedFile).

(** The updater passed to [setDocuments] in [onChange] (lines 70-76).  A
    computed key in an object literal always defines an own property. *)
Definition changeUpdater (selectedFile content : string)
    (prevDocuments : Documents) : Documents :=
  let prev := spread prevDocuments selectedFile in
  <[selectedFile :=
      {| filePath := filePath prev; loading := loading prev;
         value := Some content; scroll := scroll prev |}]> prevDocuments.

(** The updater passed to [setDocuments] in [onScroll] (lines 84-90). *)
Definition scrollUpdater (selectedFile : string) (scroll' : ScrollPosition)
    (prevDocuments : Documents) : Documents :=
  let prev := spread prevDocuments selectedFile in
  <[selectedFile :=
      {| filePath := filePath prev; loading := loading prev;
         value := value prev; scroll := Some scroll' |}]> prevDocuments.

(** What the hook owns and what it drives.  The state cell is kept in
    two parts, since [setDocuments] does not change what running code
    reads:
    - [rendered] is the value of the variable [documents] in the render
      whose handlers are running, the store the component reads (line 67);
      only a render changes it;
    - [documents] is the state React has in store for the next render:
      the rendered value with the updaters queued since then applied in
      call order, each to the state left by the previous one (the
      [prevDocuments] of the next updater);
    - [writeFileCalls] are the calls made to [webcontainer.fs.writeFile],
      oldest first. *)
Record Editor : Type := mkEditor {
  documents : Documents;
  rendered : Documents;
  writeFileCalls : list (string * string);
}.

(** [setDocuments(updater)] queues the updater: the state for the next
    render takes it into account, the rendered store is left as it is. *)
Definition setDocuments (updater : Documents → Documents) (e : Editor)
    : Editor :=
  {| documents := updater (documents e); rendered := rendered e;
     writeFileCalls := writeFileCalls e |}.

(** React renders the component again: the queued state becomes the one
    the component reads. *)
Definition render (e : Editor) : Editor :=
  {| documents := documents e; rendered := documents e;
     writeFileCalls := writeFileCalls e |}.

(** [webcontainer.fs.writeFile(path, content)] is called. *)
Definition writeFile (path content : string) (e : Editor) : Editor :=
  {| documents := documents e; rendered := rendered e;
     writeFileCalls := writeFileCalls e ++ [(path, content)] |}.

(** An [async] function is cut at its [await]s into the pieces that run
    without interruption, each started when the awaited promise is
    fulfilled; [selectedFile] and [content] are captured by the closure,
    so every piece sees the values of the call. *)
Definition Async : Type := list (Editor → Editor).

(** [onChange({ content })] *)
Definition onChange (selectedFile content : string) : Async :=
  [ (* up to [await webcontainerPromise] *)
    setDocuments (changeUpdater selectedFile content);
    (* up to [await webcontainer.fs.writeFile(...)] *)
    writeFile selectedFile content;
    (* after the write has settled: nothing is left to do *)
    id ].

(** [onScroll(scroll)] *)
Definition onScroll (selectedFile : string) (scroll' : ScrollPosition)
    (e : Editor) : Editor :=
  setDocuments (scrollUpdater selectedFile scroll') e.

(** The first [n] pieces of an asynchronous call have run. *)
Definition runPieces (n : nat) (a : Async) (e : Editor) : Editor :=
  foldl (λ e' piece, piece e') e (take n a).

(** The whole call has run. *)
Definition complete (a : Async) (e : Editor) : Editor :=
  runPieces (length a) a e.

(** A store with two of the sample documents. *)
Definition sampleEditor : Editor :=
  {| documents :=
       {[ "/src/index.js" := document "/src/index.js" "js";
          "/package.json" := document "/package.json" "json" ]};
     rendered :=
       {[ "/src/index.js" := document "/src/index.js" "js";
          "/package.json" := document "/package.json" "json" ]};
     writeFileCalls := [] |}.

End Store.

(** ** The shell handshake of [run] *)

Module Shell.

Import Chars.

(** *** The regular expression [/\x1b\]654;([^\x07]+)\x07/] *)

(** The literal head [\x1b\]654;] of the pattern. *)
Definition oscHead : string := String ESC "]654;".

(** Match the literal [lit] at the start of [s]; the rest of [s]. *)
Fixpoint literal (lit s : string) : option string :=
  match lit, s with
  | EmptyString, _ => Some s
  | String a lit', String b s' =>
      if bool_decide (a = b) then literal lit' s' else None
  | String _ _, EmptyString => None
  end.

(** Match [([^\x07]+)\x07] at the start of [s]; the captured group.
    The repetition is greedy: it takes one character that is not BEL,
    first tries to go on, and only when no continuation matches stops
    there and lets the final [\x07] match. *)
Fixpoint groupThenBel (s : string) : option string :=
  match s with
  | EmptyString => None
  | String c s' =>
      if bool_decide (c = BEL) then None
      else match groupThenBel s' with
           | Some g => Some (String c g)
           | None =>
               match s' with
               | String b _ =>
                   if bool_decide (b = BEL) then Some (String c EmptyString)
                   else None
               | EmptyString => None
               end
           end
  end.

(** The pattern anchored at the start of [s]. *)
Definition matchHere (s : string) : option string :=
  rest ← literal oscHead s; groupThenBel rest.

(** [const [, osc] = data.match(re) || []]: the pattern is tried at each
    index from the left and the first success wins; [None] is
    [undefined]. *)
Fixpoint oscOf (data : string) : option string :=
  match matchHere data with
  | Some g => Some g
  | None =>
      match data with
      | EmptyString => None
      | String _ data' => oscOf data'
      end
  end.

(** *** The session *)

(** Which statement wrote to [shellWriter]. *)
Inductive WriteSite : Type :=
| Forwarded    (* line 151, inside the [terminal.onData] listener *)
| Bootstrap.   (* line 157, after [await jshReady] *)

#[global] Instance WriteSite_eq_dec : EqDecision WriteSite.
Proof. solve_decision. Defined.

Record ShellWrite : Type := mkWrite { site : WriteSite; bytes : string }.

(** The jobs this function can put on the microtask queue. *)
Inductive Job : Type :=
| ResumeRun.   (* the rest of [run] after [await jshReady] *)

Inductive PromiseState : Type := Pending | Fulfilled.

(** The state reachable once [run] is suspended at [await jshReady]: the
    two closure variables, the microtask queue, and the calls received so
    far by [terminal.write] and by [shellWriter.write]. *)
Record Session : Type := mkSession {
  isInteractive : bool;
  jshReady : PromiseState;
  microtasks : list Job;
  terminalWrites : list string;
  shellWrites : list ShellWrite;
}.

(** [run] has executed up to [await jshReady]. *)
Definition spawned : Session :=
  {| isInteractive := false; jshReady := Pending; microtasks := [];
     terminalWrites := []; shellWrites := [] |}.

Definition bootstrapCommand : string :=
  "npm install && npm start" +:+ String LF EmptyString.

(** [resolveReady()]: settling the promise queues the job of the one
    [await] that waits on it; a settled promise stays as it is. *)
Definition resolveReady (s : Session) : Session :=
  match jshReady s with
  | Pending =>
      {| isInteractive := isInteractive s; jshReady := Fulfilled;
         microtasks := microtasks s ++ [ResumeRun];
         terminalWrites := terminalWrites s; shellWrites := shellWrites s |}
  | Fulfilled => s
  end.

Definition setInteractive (s : Session) : Session :=
  {| isInteractive := true; jshReady := jshReady s;
     microtasks := microtasks s;
     terminalWrites := terminalWrites s; shellWrites := shellWrites s |}.

(** [terminal.write(data)] *)
Definition terminalWrite (data : string) (s : Session) : Session :=
  {| isInteractive := isInteractive s; jshReady := jshReady s;
     microtasks := microtasks s;
     terminalWrites := terminalWrites s ++ [data];
     shellWrites := shellWrites s |}.

(** [shellWriter.write(data)] *)
Definition shellWrite (from : WriteSite) (data : string) (s : Session)
    : Session :=
  {| isInteractive := isInteractive s; jshReady := jshReady s;
     microtasks := microtasks s;
     terminalWrites := terminalWrites s;
     shellWrites := shellWrites s ++ [mkWrite from data] |}.

(** The [write(data)] method of the sink that [process.output] is piped
    to (lines 130-143). *)
Definition write (data : string) (s : Session) : Session :=
  let s1 :=
    if negb (isInteractive s) then
      if bool_decide (oscOf data = Some "interactive")
      then resolveReady (setInteractive s)
      else s
    else s in
  terminalWrite data s1.

(** The listener given to [terminal.onData] (lines 149-153). *)
Definition onData (data : string) (s : Session) : Session :=
  if isInteractive s then shellWrite Forwarded data s else s.

(** The statement after [await jshReady] (line 157). *)
Definition runJob (j : Job) (s : Session) : Session :=
  match j with
  | ResumeRun => shellWrite Bootstrap bootstrapCommand s
  end.

(** What the host delivers, one callback at a time: a chunk of process
    output to the piped sink, or data from the terminal to the [onData]
    listener.  Both objects belong to the host ([process.output] and the
    terminal); [terminal.write] only queues its argument for display and
    does not call the listener back while [write(data)] is running. *)
Inductive Event : Type :=
| ProcessOutput (data : string)
| TerminalData (data : string).

Definition handle (ev : Event) (s : Session) : Session :=
  match ev with
  | ProcessOutput data => write data s
  | TerminalData data => onData data s
  end.

(** After a callback returns, the microtask queue is emptied before the
    host delivers anything else.  The jobs here queue no further job. *)
Definition drain (s : Session) : Session :=
  let s' := foldl (λ acc j, runJob j acc) s (microtasks s) in
  {| isInteractive := isInteractive s'; jshReady := jshReady s';
     microtasks := [];
     terminalWrites := terminalWrites s'; shellWrites := shellWrites s' |}.

(** One turn of the event loop. *)
Definition deliver (s : Session) (ev : Event) : Session :=
  drain (handle ev s).

Definition deliverAll (evs : list Event) (s : Session) : Session :=
  foldl deliver s evs.

(** The data of the terminal events of a trace, in order. *)
Definition terminalData (evs : list Event) : list string :=
  omap (λ ev, match ev with TerminalData d => Some d | _ => None end) evs.

(** The chunks of the output events of a trace, in order. *)
Definition outputChunks (evs : list Event) : list string :=
  omap (λ ev, match ev with ProcessOutput d => Some d | _ => None end) evs.

(** The data written to the shell by the [onData] listener, in order. *)
Definition forwarded (s : Session) : list string :=
  bytes <$> filter (λ w, site w = Forwarded) (shellWrites s).

(** [data.includes(needle)] *)
Fixpoint includes (needle data : string) : bool :=
  match literal needle data with
  | Some _ => true
  | None =>
      match data with
      | EmptyString => false
      | String _ data' => includes needle data'
      end
  end.

(** The states the event loop reaches from [spawned]: between two
    deliveries no job is queued; before the OSC nothing was written to the
    shell; after it the first write is the bootstrap command and all later
    ones come from the [onData] listener. *)
Definition settled (s : Session) : Prop :=
  microtasks s = [] ∧
  if isInteractive s
  then jshReady s = Fulfilled ∧
       ∃ fw, shellWrites s
             = mkWrite Bootstrap bootstrapCommand :: (mkWrite Forwarded <$> fw)
  else jshReady s = Pending ∧ shellWrites s = [].

(** The complete marker [\x1b]654;interactive\x07]. *)
Definition marker : string :=
  oscHead +:+ "interactive" +:+ String BEL EmptyString.

(** The chunk ["hello\x1b]654;interactive\x07world"]. *)
Definition helloWorldChunk : string :=
  "hello" +:+ String ESC "]654;interactive" +:+ String BEL "world".

(** The chunk ["\x1b]654;prompt\x07\x1b]654;interactive\x07"]. *)
Definition promptThenInteractive : string :=
  String ESC "]654;prompt" +:+ String BEL EmptyString
  +:+ String ESC "]654;interactive" +:+ String BEL EmptyString.

End Shell.

(** ** Reading the shape of a built tree *)

Module TreeShape.

Import PathTree.

(** The directory object found by following own properties along [path];
    the tree itself for the empty path. *)
Fixpoint dirAt (path : list string) (t : FileSystemTree)
    : option FileSystemTree :=
  match path with
  | [] => Some t
  | name :: rest =>
      match get t name with
      | Node (DirectoryNode directory) => dirAt rest directory
      | Node (FileNode _) | Undefined | Foreign => None
      end
  end.

(** What the loop reads when it arrives at the last segment of [path]:
    the read [currentTree[name]] made there, after moving through the
    segments before it as the loop does (a missing directory counts as the
    fresh [{}] the loop would put there); [None] when the loop cannot get
    that far because it throws on the way. *)
Fixpoint readAt (path : list string) (t : FileSystemTree)
    : option PropertyRead :=
  match path with
  | [] => None
  | name :: rest =>
      match rest with
      | [] => Some (get t name)
      | _ :: _ => d ← descend t name; readAt rest d
      end
  end.

(** Every directory object of the tree still inherits from
    [Object.prototype]. *)
Definition plain (t : FileSystemTree) : Prop :=
  ∀ path d, dirAt path t = Some d → proto d = ObjectPrototype.

(** The string is made of ['/'] only (the empty string included). *)
Fixpoint onlySlashes (s : string) : bool :=
  match s with
  | EmptyString => true
  | String c s' => bool_decide (c = Chars.SLASH) && onlySlashes s'
  end.

(** The string holds no ['/']. *)
Definition slashFree (seg : string) : Prop :=
  ∀ pre post, seg ≠ pre +:+ String Chars.SLASH post.

(** The segments of a path that the loop treats as directories: all but
    the last. *)
Definition directorySegments (filePath : string) : list string :=
  removelast (segments filePath).

(** No directory segment of any key is a property name of
    [Object.prototype]. *)
Definition safeDirectories (files : Files) : Prop :=
  Forall (λ k, Forall (λ seg, seg ∉ objectPrototypeNames)
                 (directorySegments k)) files.*1.

#[global] Instance safeDirectories_dec files : Decision (safeDirectories files).
Proof. unfold safeDirectories. apply _. Defined.

(** The tree built from [sampleFiles]. *)
Definition sampleTree : FileSystemTree :=
  Tree ObjectPrototype
    {[ "src" := DirectoryNode (Tree ObjectPrototype
         {[ "index.js" := FileNode (Some "js");
            "index.html" := FileNode (Some "html");
            "assets" := DirectoryNode (Tree ObjectPrototype
              {[ "logo.svg" := FileNode (Some "svg") ]}) ]});
       "package.json" := FileNode (Some "json") ]}.

End TreeShape.

(** ** Sequences of the marker form *)

Module Marker.

Import Chars Shell.

(** The string holds no BEL. *)
Definition belFree (status : string) : Prop :=
  ∀ a b, status ≠ a +:+ String BEL b.

(** [ESC ]654; status BEL] *)
Definition sequence (status : string) : string :=
  oscHead +:+ status +:+ String BEL EmptyString.

End Marker.

(** ** Sequences of edits *)

Module Edits.

Import Store.

(** One edit: the content typed and the file selected at that moment. *)
Definition Edit : Type := string * string.

(** The call [onChange({ content })] made while [selectedFile] is the
    first component, run to its end before anything else happens. *)
Definition edit (e : Editor) (x : Edit) : Editor :=
  complete (onChange x.1 x.2) e.

(** The edits handled one after the other. *)
Definition editAll (edits : list Edit) (e : Editor) : Editor :=
  foldl edit e edits.

(** The edits handled while the container is still unavailable: every
    call runs up to [await webcontainerPromise], and once the promise is
    fulfilled the calls resume in the order in which they began to wait. *)
Definition editAllWaiting (edits : list Edit) (e : Editor) : Editor :=
  foldl (λ e' piece, piece e') e
    (((λ x : Edit, setDocuments (changeUpdater x.1 x.2)) <$> edits)
     ++ ((λ x : Edit, writeFile x.1 x.2) <$> edits)).

(** The edits of the file [path], in order. *)
Definition editsOf (path : string) (edits : list Edit) : list Edit :=
  filter (λ x : Edit, x.1 = path) edits.

End Edits.

(** ** [stripIndent] and [minIndent] *)

Module Indent.

(** [[ \t]] *)
Definition isBlank (c : ascii) : bool :=
  bool_decide (nat_of_ascii c ∈ [32; 9]).

(** [\s], which is also what [trim] removes: the white space and line
    terminator code units below 256 (TAB, LF, VT, FF, CR, SP, NBSP). *)
Definition isSpace (c : ascii) : bool :=
  bool_decide (nat_of_ascii c ∈ [9; 10; 11; 12; 13; 32; 160]).

(** The code units after which [^] matches under the [m] flag: LF, CR. *)
Definition isLineTerminator (c : ascii) : bool :=
  bool_decide (nat_of_ascii c ∈ [10; 13]).

(** The longest run of [[ \t]] at the start of [s], and what follows. *)
Fixpoint takeBlanks (s : string) : string :=
  match s with
  | String c s' => if isBlank c then String c (takeBlanks s') else EmptyString
  | EmptyString => EmptyString
  end.

Fixpoint dropBlanks (s : string) : string :=
  match s with
  | String c s' => if isBlank c then dropBlanks s' else s
  | EmptyString => EmptyString
  end.

(** [[ \t]*(?=\S)] at the start of [s].  The star is greedy; giving back
    characters cannot help, the character after a shorter run being a
    blank, which is not [\S]. *)
Definition indentHere (s : string) : option string :=
  match dropBlanks s with
  | String c _ => if isSpace c then None else Some (takeBlanks s)
  | EmptyString => None
  end.

(** [string.match(/^[ \t]*(?=\S)/gm)]: the matches in order, [[]] for
    [null].  [lineStart] tells whether [^] matches at the start of [s].
    A match holds no line terminator, so the search resumed after a match
    finds the next one at a later line start, where this scan finds it
    too. *)
Fixpoint indents (lineStart : bool) (s : string) : list string :=
  (if lineStart then option_list (indentHere s) else [])
  ++ match s with
     | EmptyString => []
     | String c s' => indents (isLineTerminator c) s'
     end.

(** [minIndent]: [match.reduce((acc, curr) => Math.min(acc, curr.length),
    Infinity)], which for the non-empty [match] is the least length, the
    first [Math.min(Infinity, n)] being [n]. *)
Definition minIndent (s : string) : nat :=
  match indents true s with
  | [] => 0
  | m :: ms => foldl (λ acc curr, acc `min` String.length curr) (String.length m) ms
  end.

(** The first [n] characters of [s] are blanks: [^[ \t]{n}] matches at a
    line start followed by [s]. *)
Fixpoint hasBlanks (n : nat) (s : string) : bool :=
  match n with
  | 0 => true
  | S n' =>
      match s with
      | String c s' => isBlank c && hasBlanks n' s'
      | EmptyString => false
      end
  end.

(** [string.replace(new RegExp(`^[ \\t]{${n}}`, 'gm'), '')], read from
    left to right; [skip] counts the characters of the current match that
    are still to be left out. *)
Fixpoint unindent (n skip : nat) (s : string) : string :=
  match s with
  | EmptyString => EmptyString
  | String c s' =>
      match skip with
      | S k => unindent n k s'
      | 0 =>
          String c
            (unindent n
               (if isLineTerminator c && hasBlanks n s' then n else 0) s')
      end
  end.

Definition replaceIndent (n : nat) (s : string) : string :=
  unindent n (if hasBlanks n s then n else 0) s.

(** [trim] *)
Fixpoint trimStart (s : string) : string :=
  match s with
  | String c s' => if isSpace c then trimStart s' else s
  | EmptyString => EmptyString
  end.

Fixpoint trimEnd (s : string) : string :=
  match s with
  | EmptyString => EmptyString
  | String c s' =>
      match trimEnd s' with
      | EmptyString => if isSpace c then EmptyString else String c EmptyString
      | String c' r => String c (String c' r)
      end
  end.

Definition trim (s : string) : string := trimEnd (trimStart s).

(** [string.slice(1)] *)
Definition slice1 (s : string) : string :=
  match s with
  | String _ s' => s'
  | EmptyString => EmptyString
  end.

(** [stripIndent] *)
Definition stripIndent (s : string) : string :=
  let indent := minIndent (slice1 s) in
  if bool_decide (indent = 0) then s
  else trim (replaceIndent indent s).

(** The characters of [s] that are not white space, in order. *)
Fixpoint visible (s : string) : string :=
  match s with
  | EmptyString => EmptyString
  | String c s' => if isSpace c then visible s' else String c (visible s')
  end.

(** The string is made of blanks only. *)
Fixpoint allBlank (b : string) : bool :=
  match b with
  | EmptyString => true
  | String c b' => isBlank c && allBlank b'
  end.

(** A line starts right after [before]: [before] is empty (the start of
    the string) or ends with a line terminator. *)
Fixpoint endsLine (before : string) : bool :=
  match before with
  | EmptyString => true
  | String c rest =>
      match rest with
      | EmptyString => isLineTerminator c
      | String _ _ => endsLine rest
      end
  end.

(** The string [s] has a line that begins with the blanks [b] followed by
    a character that is not white space. *)
Definition indentedLine (s b : string) : Prop :=
  ∃ before c rest,
    s = before +:+ b +:+ String c rest ∧
    endsLine before = true ∧ allBlank b = true ∧ isSpace c = false.

(** A blank, a no-break space and a letter: [" \xa0x"]. *)
Definition nbspLine : string :=
  String (ascii_of_nat 32) (String (ascii_of_nat 160) "x").

(** The template literal of ['/src/index.js']: a line break, the
    statement indented by six spaces, a line break and four spaces. *)
Definition indexJsLiteral : string :=
  String Chars.LF "      document.body.innerHTML = '<h1>Hello, world!</h1>';"
  +:+ String Chars.LF "    ".

End Indent.

(** ** The state of [useSimpleEditor] under user events *)

Module Hook.

Import Store.

(** The two state cells the handlers read and write, with the log of
    write requests. *)
Record State : Type := mkState {
  selectedFile : string;
  editor : Editor;
}.

(** What the rendered components report: [onFileSelect] of the file tree
    (wired to [setSelectedFile]), [onChange] and [onScroll] of the
    editor. *)
Inductive UIEvent : Type :=
| FileSelect (path : string)
| EditorChange (content : string)
| EditorScroll (pos : ScrollPosition).

(** The handlers close over the [selectedFile] of the current render. *)
Definition step (s : State) (ev : UIEvent) : State :=
  match ev with
  | FileSelect path => {| selectedFile := path; editor := editor s |}
  | EditorChange content =>
      {| selectedFile := selectedFile s;
         editor := complete (onChange (selectedFile s) content) (editor s) |}
  | EditorScroll pos =>
      {| selectedFile := selectedFile s;
         editor := onScroll (selectedFile s) pos (editor s) |}
  end.

Definition steps (evs : list UIEvent) (s : State) : State := foldl step s evs.

(** [const document = documents[selectedFile]], as the render that
    follows the events computes it. *)
Definition document (s : State) : option EditorDocument :=
  documents (editor s) !! selectedFile s.

(** The paths selected along a trace. *)
Definition selections (evs : list UIEvent) : list string :=
  omap (λ ev, match ev with FileSelect path => Some path | _ => None end) evs.

(** Every document is stored under its own [filePath]. *)
Definition keyed (docs : Documents) : Prop :=
  ∀ path d, docs !! path = Some d → filePath d = Some path.

(** The state after the first render, with the sample documents for
    [FILES]: [useState('/src/index.js')] and [useState(FILES)]. *)
Definition sampleState : State :=
  {| selectedFile := "/src/index.js"; editor := sampleEditor |}.

End Hook.

(** * Properties *)

(** ** Shell handshake *)

Section ShellFacts.

Import Chars Shell.

Lemma drain_isInteractive s : isInteractive (drain s) = isInteractive s.
Proof.
  unfold drain; simpl.
  generalize (microtasks s) as js; intros js; revert s.
  induction js as [|[] js IH]; intros s; simpl; [done|].
  by rewrite IH.
Qed.

Lemma drain_terminalWrites s : terminalWrites (drain s) = terminalWrites s.
Proof.
  unfold drain; simpl.
  generalize (microtasks s) as js; intros js; revert s.
  induction js as [|[] js IH]; intros s; simpl; [done|].
  by rewrite IH.
Qed.

Lemma deliver_terminalWrites s ev :
  terminalWrites (deliver s ev)
  = terminalWrites s ++ outputChunks [ev].
Proof.
  unfold deliver. rewrite drain_terminalWrites.
  destruct ev as [data|data]; simpl.
  - unfold write. destruct (isInteractive s); simpl; [done|].
    case_bool_decide; simpl; [|done].
    unfold resolveReady; simpl. by destruct (jshReady s).
  - unfold onData. destruct (isInteractive s); simpl; by rewrite ?app_nil_r.
Qed.

Lemma deliverAll_terminalWrites evs s :
  terminalWrites (deliverAll evs s) = terminalWrites s ++ outputChunks evs.
Proof.
  revert s. induction evs as [|ev evs IH]; intros s.
  - simpl. by rewrite app_nil_r.
  - change (deliverAll (ev :: evs) s) with (deliverAll evs (deliver s ev)).
    rewrite IH, deliver_terminalWrites, <- app_assoc. f_equal.
    unfold outputChunks. by rewrite <- omap_app.
Qed.

Lemma deliverAll_app evs1 evs2 s :
  deliverAll (evs1 ++ evs2) s = deliverAll evs2 (deliverAll evs1 s).
Proof. unfold deliverAll. apply foldl_app. Qed.

Lemma forwarded_user b fw s :
  shellWrites s = mkWrite Bootstrap b :: (mkWrite Forwarded <$> fw) →
  forwarded s = fw.
Proof.
  unfold forwarded. intros H. rewrite H. clear H.
  rewrite filter_cons_False by (simpl; congruence).
  induction fw as [|d fw IH]; [done|].
  rewrite fmap_cons. rewrite filter_cons_True by done.
  rewrite fmap_cons. simpl. by rewrite IH.
Qed.

Lemma settled_deliver s ev : settled s → settled (deliver s ev).
Proof.
  intros [Hq Hs]. destruct s as [i p q tw sw]; simpl in *; subst q.
  destruct ev as [data|data], i; simpl in *.
  - destruct Hs as [-> [fw ->]]. split; [done|]. simpl. eauto.
  - destruct Hs as [-> ->]. unfold deliver, handle, write. cbn [isInteractive negb].
    case_bool_decide; simpl; (split; [done|]); simpl; [|done].
    split; [done|]. by exists [].
  - destruct Hs as [-> [fw ->]]. split; [done|]. simpl. split; [done|].
    exists (fw ++ [data]). by rewrite fmap_app.
  - destruct Hs as [-> ->]. split; done.
Qed.

Lemma settled_deliverAll evs s : settled s → settled (deliverAll evs s).
Proof.
  revert s. induction evs as [|ev evs IH]; intros s Hs; [done|].
  apply IH, settled_deliver, Hs.
Qed.

Lemma settled_spawned : settled spawned.
Proof. split; [done|]. simpl. done. Qed.

(** *** The regular expression *)

Lemma literal_app a b s : literal (a +:+ b) s = literal a s ≫= literal b.
Proof.
  revert s. induction a as [|c a IH]; intros s; simpl; [done|].
  destruct s as [|c' s]; [done|]. case_bool_decide; [apply IH|done].
Qed.

Lemma groupThenBel_literal s g :
  groupThenBel s = Some g →
  is_Some (literal (g +:+ String BEL EmptyString) s).
Proof.
  revert g. induction s as [|c s IH]; intros g; simpl; [done|].
  case_bool_decide as Hc; [done|].
  destruct (groupThenBel s) as [g'|] eqn:Hg.
  - intros [= <-]. simpl. rewrite bool_decide_true by done. by apply IH.
  - destruct s as [|b s]; [done|]. case_bool_decide as Hb; [|done].
    intros [= <-]. simpl. rewrite !bool_decide_true by done. eauto.
Qed.

Lemma matchHere_literal s g :
  matchHere s = Some g →
  is_Some (literal (oscHead +:+ g +:+ String BEL EmptyString) s).
Proof.
  unfold matchHere. rewrite literal_app.
  destruct (literal oscHead s) as [rest|]; simpl; [|done].
  apply groupThenBel_literal.
Qed.

Lemma literal_includes needle data :
  is_Some (literal needle data) → includes needle data = true.
Proof. intros [r Hr]. destruct data; simpl; by rewrite Hr. Qed.

Lemma includes_tail needle c data :
  includes needle data = true → includes needle (String c data) = true.
Proof. intros H. simpl. by destruct (literal needle (String c data)). Qed.

Lemma oscOf_cons c data :
  oscOf (String c data)
  = match matchHere (String c data) with
    | Some g => Some g
    | None => oscOf data
    end.
Proof. reflexivity. Qed.

(** A captured group lies between the head and a BEL inside the chunk. *)
Lemma oscOf_includes data g :
  oscOf data = Some g →
  includes (oscHead +:+ g +:+ String BEL EmptyString) data = true.
Proof.
  induction data as [|c data IH]; [done|].
  rewrite oscOf_cons.
  destruct (matchHere (String c data)) eqn:Hm.
  - intros [= ->]. by apply literal_includes, matchHere_literal.
  - intros H. apply (includes_tail _ c), IH, H.
Qed.

Lemma literal_Some lit s r : literal lit s = Some r ↔ s = lit +:+ r.
Proof.
  revert s. induction lit as [|a lit IH]; intros s; simpl.
  - split; [by intros [= ->]|by intros ->].
  - destruct s as [|b s]; [done|]. case_bool_decide as Hab.
    + subst b. rewrite IH. split; [by intros ->|by intros [= ->]].
    + split; [done|]. intros [= -> _]. done.
Qed.

(** [includes] is the substring test. *)
Lemma includes_spec needle data :
  includes needle data = true ↔ ∃ pre post, data = pre +:+ needle +:+ post.
Proof.
  split.
  - induction data as [|c data IH].
    + simpl. destruct (literal needle EmptyString) as [r|] eqn:Hl; [|done].
      intros _. apply literal_Some in Hl. by exists EmptyString, r.
    + cbn [includes].
      destruct (literal needle (String c data)) as [r|] eqn:Hl.
      * intros _. apply literal_Some in Hl. by exists EmptyString, r.
      * intros H. destruct (IH H) as (pre & post & ->).
        by exists (String c pre), post.
  - intros (pre & post & ->). induction pre as [|c pre IH].
    + apply literal_includes. exists post. by apply literal_Some.
    + by apply (includes_tail _ c).
Qed.

(** The group of a sequence of the marker form standing at the start of
    the chunk is what [oscOf] returns: later sequences are not looked at. *)
Lemma groupThenBel_here status rest :
  status ≠ EmptyString → (∀ pre post, status ≠ pre +:+ String BEL post) →
  groupThenBel (status +:+ String BEL rest) = Some status.
Proof.
  induction status as [|c status IH]; [done|]. intros _ Hbel.
  change (String c status +:+ String BEL rest)
    with (String c (status +:+ String BEL rest)).
  cbn [groupThenBel].
  rewrite bool_decide_false
    by (intros ->; by apply (Hbel EmptyString status)).
  destruct status as [|c' status].
  - done.
  - rewrite IH; [done|done|].
    intros pre post Heq. apply (Hbel (String c pre) post). simpl. by rewrite Heq.
Qed.

Lemma first_sequence_decides status rest :
  status ≠ EmptyString → (∀ pre post, status ≠ pre +:+ String BEL post) →
  oscOf (oscHead +:+ status +:+ String BEL rest) = Some status.
Proof.
  intros Hne Hbel.
  assert (matchHere (oscHead +:+ status +:+ String BEL rest) = Some status)
    as Hm.
  { unfold matchHere.
    rewrite (proj2 (literal_Some oscHead _ (status +:+ String BEL rest)))
      by done.
    by apply groupThenBel_here. }
  change (oscHead +:+ status +:+ String BEL rest)
    with (String ESC ("]654;" +:+ status +:+ String BEL rest)) in *.
  rewrite oscOf_cons. by rewrite Hm.
Qed.

(** The flag is raised by an output chunk only if the chunk holds the
    complete marker. *)
Lemma raised_only_by_marker s chunk :
  isInteractive s = false →
  isInteractive (deliver s (ProcessOutput chunk)) = true →
  includes marker chunk = true.
Proof.
  intros Hs. unfold deliver. rewrite drain_isInteractive. simpl.
  unfold write. rewrite Hs. cbn [negb].
  case_bool_decide as Hosc.
  - intros _. by apply oscOf_includes in Hosc.
  - simpl. congruence.
Qed.

Lemma interactive_stays s ev :
  isInteractive s = true → isInteractive (deliver s ev) = true.
Proof.
  intros Hs. unfold deliver. rewrite drain_isInteractive.
  destruct ev; simpl; unfold write, onData; rewrite Hs; done.
Qed.


Lemma forwarded_deliver s ev :
  isInteractive s = true → microtasks s = [] →
  forwarded (deliver s ev) = forwarded s ++ terminalData [ev].
Proof.
  intros Hi Hq. destruct s as [i p q tw sw]; simpl in *; subst i q.
  destruct ev as [data|data]; unfold deliver, drain, forwarded; simpl.
  - by rewrite app_nil_r.
  - by rewrite filter_app, fmap_app.
Qed.

Lemma microtasks_deliver s ev : microtasks (deliver s ev) = [].
Proof. done. Qed.

Lemma forwarded_deliverAll post s :
  isInteractive s = true → microtasks s = [] →
  forwarded (deliverAll post s) = forwarded s ++ terminalData post.
Proof.
  revert s. induction post as [|ev post IH]; intros s Hi Hq.
  - simpl. by rewrite app_nil_r.
  - change (deliverAll (ev :: post) s) with (deliverAll post (deliver s ev)).
    rewrite IH by auto using interactive_stays, microtasks_deliver.
    rewrite forwarded_deliver, <- app_assoc by done. f_equal.
    unfold terminalData. by rewrite <- omap_app.
Qed.

Lemma forwarded_at_marker s chunk :
  settled s → isInteractive s = false →
  forwarded (deliver s (ProcessOutput chunk)) = [].
Proof.
  intros [Hq Hs] Hi. destruct s as [i p q tw sw]; simpl in *; subst i q.
  destruct Hs as [-> ->].
  unfold deliver, handle, write. cbn [isInteractive negb].
  by case_bool_decide.
Qed.

End ShellFacts.

Section ShellClaims.

Import Chars Shell.

(** C4. Every output chunk handed to the scanner, matched or not, is
    passed on to [terminal.write] as it is: one delivery appends exactly
    that chunk to the terminal's writes, so a whole trace leaves the
    chunks of the process output in order on the display.  In particular
    the chunk [hello ESC ]654;interactive BEL world] makes the session
    interactive and is displayed complete. *)
Theorem output_forwarded_unmodified :
  (∀ s chunk,
     terminalWrites (deliver s (ProcessOutput chunk))
     = terminalWrites s ++ [chunk]) ∧
  (∀ evs, terminalWrites (deliverAll evs spawned) = outputChunks evs) ∧
  (let s := deliver spawned (ProcessOutput helloWorldChunk) in
   isInteractive s = true ∧ terminalWrites s = [helloWorldChunk]).
Proof.
  split; [|split].
  - intros s chunk. apply deliver_terminalWrites.
  - intros evs. by rewrite deliverAll_terminalWrites.
  - by vm_compute.
Qed.

(** C9. The marker is only recognised inside one chunk: when neither of
    two consecutive chunks holds the complete sequence
    [ESC ]654;interactive BEL], although their concatenation does, a
    session that was not interactive is still not interactive after
    both. *)
Theorem split_marker_not_detected (s : Session) (chunk1 chunk2 : string) :
  isInteractive s = false →
  includes marker chunk1 = false →
  includes marker chunk2 = false →
  includes marker (chunk1 +:+ chunk2) = true →
  isInteractive
    (deliverAll [ProcessOutput chunk1; ProcessOutput chunk2] s) = false.
Proof.
  intros Hs H1 H2 _.
  change (deliverAll [ProcessOutput chunk1; ProcessOutput chunk2] s)
    with (deliver (deliver s (ProcessOutput chunk1)) (ProcessOutput chunk2)).
  destruct (isInteractive (deliver s (ProcessOutput chunk1))) eqn:E1.
  { apply raised_only_by_marker in E1; congruence. }
  destruct (isInteractive (deliver _ (ProcessOutput chunk2))) eqn:E2; [|done].
  apply raised_only_by_marker in E2; congruence.
Qed.

Lemma split_marker_not_detected_witness :
  isInteractive
    (deliverAll [ProcessOutput (String ESC "]654;inter");
                 ProcessOutput ("active" +:+ String BEL "$ ")] spawned)
  = false.
Proof.
  apply (split_marker_not_detected spawned
           (String ESC "]654;inter") ("active" +:+ String BEL "$ "));
    vm_compute; reflexivity.
Defined.

(** C1. Terminal data is gated on the flag.  As long as the marker has
    not been observed ([isInteractive] is false) nothing at all has been
    written to the shell, whatever the terminal delivered; from the chunk
    that raises the flag on, the shell receives from the listener exactly
    the data of the terminal events delivered afterwards, in the order of
    delivery, and none of the earlier ones. *)
Theorem gated_input (pre post : list Event) (chunk : string) :
  let before := deliverAll pre spawned in
  let ready := deliver before (ProcessOutput chunk) in
  isInteractive before = false →
  shellWrites before = [] ∧
  (isInteractive ready = true →
   forwarded (deliverAll post ready) = terminalData post).
Proof.
  intros before ready Hb.
  assert (Hset : settled before) by apply settled_deliverAll, settled_spawned.
  split.
  - destruct Hset as [_ Hs]. rewrite Hb in Hs. apply Hs.
  - intros Hr. subst ready.
    rewrite forwarded_deliverAll by auto using microtasks_deliver.
    by rewrite forwarded_at_marker.
Qed.

Lemma gated_input_witness :
  shellWrites
    (deliverAll [TerminalData "l"; ProcessOutput "booting"; TerminalData "s"]
       spawned) = [] ∧
  forwarded
    (deliverAll
       ([TerminalData "l"; ProcessOutput "booting"; TerminalData "s"]
        ++ ProcessOutput marker
        :: [TerminalData "p"; ProcessOutput "$ "; TerminalData "w";
            TerminalData "d"]) spawned)
  = ["p"; "w"; "d"].
Proof.
  destruct (gated_input
              [TerminalData "l"; ProcessOutput "booting"; TerminalData "s"]
              [TerminalData "p"; ProcessOutput "$ "; TerminalData "w";
               TerminalData "d"]
              marker eq_refl) as [H1 H2].
  split; [exact H1 | exact (H2 eq_refl)].
Defined.

(** In every state reached from [spawned] the writes to the shell are
    none while the flag is false, and otherwise the bootstrap command
    followed by forwarded terminal data only. *)
Lemma bootstrap_first (evs : list Event) :
  let s := deliverAll evs spawned in
  shellWrites s
  = (if isInteractive s
     then mkWrite Bootstrap bootstrapCommand
            :: (mkWrite Forwarded <$> forwarded s)
     else []) ∧
  length (filter (λ w, site w = Bootstrap) (shellWrites s))
  = (if isInteractive s then 1 else 0).
Proof.
  intros s.
  assert (Hset : settled s) by apply settled_deliverAll, settled_spawned.
  destruct Hset as [_ Hs]. destruct (isInteractive s).
  - destruct Hs as [_ [fw Hfw]].
    rewrite (forwarded_user _ _ _ Hfw). split; [done|].
    rewrite Hfw. rewrite filter_cons_True by done. simpl. f_equal.
    clear. induction fw as [|d fw IH]; [done|].
    rewrite fmap_cons, filter_cons_False by (simpl; congruence). done.
  - destruct Hs as [_ ->]. done.
Qed.






(** C6, evaluated where it fails.  A chunk carrying two sequences of the
    marker form, [ESC ]654;prompt BEL] and then [ESC ]654;interactive BEL],
    holds the interactive marker; only the first sequence is looked at,
    so the session stays non-interactive and nothing is written to the
    shell. *)
Theorem second_marker_in_chunk_missed :
  includes marker promptThenInteractive = true ∧
  oscOf promptThenInteractive = Some "prompt" ∧
  let s := deliver spawned (ProcessOutput promptThenInteractive) in
  isInteractive s = false ∧ shellWrites s = [].
Proof. by vm_compute. Qed.

End ShellClaims.

(** ** Path tree builder *)

Section PathTreeFacts.

Import PathTree.

(** *** Property reads after writes *)

Lemma get_setDirectory_eq t n d :
  n ≠ PROTO → get (setDirectory t n d) n = Node (DirectoryNode d).
Proof.
  intros Hn. unfold get, setDirectory; simpl.
  rewrite bool_decide_false by done. by rewrite lookup_insert_eq.
Qed.

Lemma get_setDirectory_ne t n m d :
  n ≠ m → get (setDirectory t n d) m = get t m.
Proof.
  intros Hn. unfold get, setDirectory; simpl.
  by rewrite lookup_insert_ne.
Qed.

Lemma get_setFile_eq t n c :
  n ≠ PROTO → get (setFile t n c) n = Node (FileNode c).
Proof.
  intros Hn. unfold get, setFile.
  rewrite !bool_decide_false by done. simpl. by rewrite lookup_insert_eq.
Qed.

Lemma get_setFile_ne t n m c :
  n ≠ PROTO → n ≠ m → get (setFile t n c) m = get t m.
Proof.
  intros Hn Hm. unfold get, setFile.
  rewrite (bool_decide_false (n = PROTO)) by done. simpl.
  by rewrite lookup_insert_ne.
Qed.

Lemma get_PROTO t : get t PROTO = Foreign.
Proof. done. Qed.

Lemma get_Node_not_PROTO t n e : get t n = Node e → n ≠ PROTO.
Proof. intros H ->. by rewrite get_PROTO in H. Qed.

Lemma descend_setDirectory_eq t n d :
  n ≠ PROTO → descend (setDirectory t n d) n = Some d.
Proof. intros Hn. unfold descend. by rewrite get_setDirectory_eq. Qed.

Lemma descend_PROTO t : descend t PROTO = None.
Proof. done. Qed.

(** *** The loop, one segment at a time *)

Lemma walk_cons name rest contents t :
  rest ≠ [] →
  walk (name :: rest) contents t
  = d0 ← descend t name; d ← walk rest contents d0;
    Some (setDirectory t name d).
Proof.
  intros Hr. destruct rest as [|seg rest]; [done|].
  unfold descend. cbn [walk].
  destruct (get t name) as [|[c|dir]|]; simpl; done.
Qed.

Lemma walk_setNode name rest contents t :
  name ≠ PROTO →
  walk (name :: rest) contents t
  = n ← nodeAfter name rest contents t; Some (setNode t name n).
Proof.
  intros Hn. destruct rest as [|seg rest].
  - simpl. unfold setFile. by rewrite bool_decide_false.
  - rewrite walk_cons by done. unfold nodeAfter.
    destruct (descend t name) as [d0|]; [|done].
    cbv beta iota delta [mbind option_bind].
    destruct (walk (seg :: rest) contents d0); done.
Qed.

Lemma nodeAfter_setNode name rest contents t name' n :
  name' ≠ name →
  nodeAfter name rest contents (setNode t name' n)
  = nodeAfter name rest contents t.
Proof.
  intros Hne. destruct rest as [|seg rest]; [done|].
  unfold nodeAfter, descend, get, setNode; simpl.
  by rewrite lookup_insert_ne.
Qed.

Lemma setNode_comm t n1 n2 e1 e2 :
  n1 ≠ n2 →
  setNode (setNode t n1 e1) n2 e2 = setNode (setNode t n2 e2) n1 e1.
Proof.
  intros Hne. unfold setNode; simpl. f_equal. by apply insert_insert_ne.
Qed.

Lemma setDirectory_again t n d1 d2 :
  setDirectory (setDirectory t n d1) n d2 = setDirectory t n d2.
Proof. unfold setDirectory; simpl. f_equal. apply insert_insert_eq. Qed.

(** *** Two paths that do not clash can be written in either order *)

Ltac unbind := cbv beta iota delta [mbind option_bind].

Lemma bind_walk_nil (m : option FileSystemTree) c : m ≫= walk [] c = m.
Proof. by destruct m. Qed.

Lemma walk_comm p1 p2 c1 c2 t :
  PROTO ∉ p1 → PROTO ∉ p2 →
  ¬ clash p1 p2 → ¬ clash p2 p1 →
  walk p1 c1 t ≫= walk p2 c2 = walk p2 c2 t ≫= walk p1 c1.
Proof.
  revert p2 t. induction p1 as [|n1 r1 IH]; intros p2 t Hp1 Hp2 H12 H21.
  { symmetry. apply bind_walk_nil. }
  destruct p2 as [|n2 r2].
  { apply bind_walk_nil. }
  apply not_elem_of_cons in Hp1 as [Hn1 Hr1].
  apply not_elem_of_cons in Hp2 as [Hn2 Hr2].
  destruct (decide (n1 = n2)) as [<-|Hne].
  - (* both paths go through the directory [n1] *)
    assert (r1 ≠ []) as Hne1.
    { intros ->. apply H12. split; [done|]. by exists r2. }
    assert (r2 ≠ []) as Hne2.
    { intros ->. apply H21. split; [done|]. by exists r1. }
    assert (¬ clash r1 r2) as H12'.
    { intros [_ [k ->]]. apply H12. split; [done|]. by exists k. }
    assert (¬ clash r2 r1) as H21'.
    { intros [_ [k ->]]. apply H21. split; [done|]. by exists k. }
    specialize (IH r2).
    rewrite !walk_cons by done.
    destruct (descend t n1) as [d0|] eqn:Hd; [|done].
    specialize (IH d0 Hr1 Hr2 H12' H21').
    unbind. cbv beta iota delta [mbind option_bind] in IH.
    destruct (walk r1 c1 d0) as [d1|] eqn:E1;
      destruct (walk r2 c2 d0) as [d2|] eqn:E2.
    + rewrite !walk_cons, !descend_setDirectory_eq by done. unbind.
      rewrite IH. destruct (walk r1 c1 d2); [|done].
      by rewrite !setDirectory_again.
    + rewrite !walk_cons, !descend_setDirectory_eq by done. unbind.
      by rewrite IH.
    + rewrite !walk_cons, !descend_setDirectory_eq by done. unbind.
      by rewrite <- IH.
    + done.
  - (* the paths part at the first segment *)
    rewrite !walk_setNode by done. unbind.
    destruct (nodeAfter n1 r1 c1 t) as [e1|] eqn:E1;
      destruct (nodeAfter n2 r2 c2 t) as [e2|] eqn:E2;
      rewrite ?walk_setNode by done; unbind;
      rewrite ?nodeAfter_setNode by done; rewrite ?E1, ?E2; try done.
    by rewrite setNode_comm.
Qed.

Lemma addFile_None files : foldl addFile None files = None.
Proof. induction files as [|x files IH]; done. Qed.

Lemma addFile_comm acc x y :
  PROTO ∉ segments x.1 → PROTO ∉ segments y.1 →
  ¬ clash (segments x.1) (segments y.1) →
  ¬ clash (segments y.1) (segments x.1) →
  addFile (addFile acc x) y = addFile (addFile acc y) x.
Proof.
  intros Hx Hy Hxy Hyx. destruct acc as [t|]; [|done].
  unfold addFile. cbn [mbind option_bind].
  by apply walk_comm.
Qed.

Lemma separated_apart files : separated files → apart files.
Proof.
  unfold separated. rewrite Forall_forall. intros H. split.
  - intros k Hk. by apply H.
  - intros k1 k2 Hk1 Hk2 Hne. destruct (H k1 Hk1) as [_ H2].
    rewrite Forall_forall in H2. by destruct (H2 k2 Hk2).
Qed.

Lemma apart_perm files1 files2 : files1 ≡ₚ files2 → apart files1 → apart files2.
Proof.
  intros Hp [H1 H2].
  assert (∀ k, k ∈ files2.*1 → k ∈ files1.*1) as Hin.
  { intros k. by rewrite Hp. }
  split; eauto.
Qed.

Lemma foldl_addFile_perm files1 files2 :
  files1 ≡ₚ files2 → NoDup files1.*1 → apart files1 →
  ∀ acc, foldl addFile acc files1 = foldl addFile acc files2.
Proof.
  induction 1 as [|x l l' Hp IH|x y l|l l' l'' Hp1 IH1 Hp2 IH2];
    intros Hnd Hap acc.
  - done.
  - simpl. apply IH.
    + rewrite fmap_cons in Hnd. by apply NoDup_cons in Hnd as [_ ?].
    + destruct Hap as [H1 H2]. split.
      * intros k Hk. apply H1. rewrite fmap_cons. by right.
      * intros k1 k2 Hk1 Hk2. apply H2; rewrite fmap_cons; by right.
  - simpl. f_equal. destruct Hap as [H1 H2].
    rewrite !fmap_cons in Hnd, H1, H2.
    apply NoDup_cons in Hnd as [Hy _].
    assert (y.1 ≠ x.1) as Hne by (intros Heq; apply Hy; rewrite Heq; by left).
    apply addFile_comm.
    + apply H1. by left.
    + apply H1. right. by left.
    + apply H2; [by left|right; by left|done].
    + apply H2; [right; by left|by left|done].
  - rewrite IH1 by done. apply IH2.
    + by rewrite <- Hp1.
    + by apply (apart_perm l).
Qed.

(** *** Writing onto and below existing nodes *)

Lemma walk_onto_directory p c t sub :
  entryAt p t = Some (DirectoryNode sub) →
  ∃ t', walk p c t = Some t' ∧ entryAt p t' = Some (FileNode c).
Proof.
  revert t. induction p as [|n r IH]; intros t; [done|].
  cbn [entryAt]. destruct (get t n) as [|e|] eqn:Hg; try done.
  pose proof (get_Node_not_PROTO _ _ _ Hg) as Hn.
  destruct r as [|m r].
  - intros [= ->]. exists (setFile t n c). split; [done|].
    cbn [entryAt]. by rewrite get_setFile_eq.
  - destruct e as [c0|dir]; [done|]. intros Hsub.
    destruct (IH dir Hsub) as (d' & Hw & He).
    exists (setDirectory t n d'). split.
    + rewrite walk_cons by done. unfold descend. rewrite Hg. unbind.
      by rewrite Hw.
    + cbn [entryAt]. by rewrite get_setDirectory_eq.
Qed.

Lemma walk_below_file pre rest c c0 t :
  entryAt pre t = Some (FileNode c0) → rest ≠ [] →
  walk (pre ++ rest) c t = None.
Proof.
  intros He Hrest. revert t He.
  induction pre as [|n r IH]; intros t; [done|].
  cbn [entryAt]. destruct (get t n) as [|e|] eqn:Hg; try done.
  assert (r ++ rest ≠ []) as Hne by (destruct r, rest; done).
  change ((n :: r) ++ rest) with (n :: (r ++ rest)).
  rewrite walk_cons by done. unfold descend. rewrite Hg.
  destruct r as [|m r].
  - by intros [= ->].
  - destruct e as [c1|dir]; [done|]. intros He. unbind.
    by rewrite (IH dir He).
Qed.

End PathTreeFacts.

Section PathTreeClaims.

Import PathTree.

(** C8. Building the tree of [{'/src/index.js': 'A', '/pkg.json': 'B'}]
    gives a root with exactly the two entries [src] and [pkg.json]: [src]
    is a directory whose only entry is the file [index.js] with contents
    ['A'], and [pkg.json] is a file with contents ['B']. *)
Theorem example_tree :
  toFileTree exampleFiles
  = Some (Tree ObjectPrototype
      {[ "src" := DirectoryNode
                    (Tree ObjectPrototype
                       {[ "index.js" := FileNode (Some "A") ]});
         "pkg.json" := FileNode (Some "B") ]}) ∧
  (λ t, size (own t)) <$> toFileTree exampleFiles = Some 2.
Proof. split; vm_compute; reflexivity. Qed.

(** C3, counterexample.  In [{'/a/b': 'X', '/a': 'Y'}] the path [/a] is
    used as a directory and as a file; the builder does not reject the
    mapping, it returns a tree in which the file has replaced the
    directory. *)
Lemma collision_not_rejected :
  usedAsFileAndDirectory
    [("/a/b", document "/a/b" "X"); ("/a", document "/a" "Y")] ∧
  toFileTree [("/a/b", document "/a/b" "X"); ("/a", document "/a" "Y")]
  = Some (Tree ObjectPrototype {[ "a" := FileNode (Some "Y") ]}).
Proof.
  split.
  - exists "/a", "/a/b", ["b"]. repeat split; try done.
    + right. by left.
    + by left.
  - vm_compute. reflexivity.
Qed.

(** C3, as the code behaves.  There is no check for a path used both as
    a file and as a directory.  A file path enumerated when its place
    holds a directory replaces that directory by the file node and the
    call goes on; a path that has to descend through a name holding a
    file node makes the call throw (a [TypeError] raised by indexing
    [undefined]), whatever is enumerated after it. *)
Theorem collision_outcome (files : Files) (t : FileSystemTree)
    (filePath : string) (d : EditorDocument) :
  toFileTree files = Some t →
  (∀ sub,
     entryAt (segments filePath) t = Some (DirectoryNode sub) →
     ∃ t', toFileTree (files ++ [(filePath, d)]) = Some t' ∧
           entryAt (segments filePath) t' = Some (FileNode (value d))) ∧
  (∀ pre rest c more,
     segments filePath = pre ++ rest → rest ≠ [] →
     entryAt pre t = Some (FileNode c) →
     toFileTree (files ++ (filePath, d) :: more) = None).
Proof.
  intros Ht. unfold toFileTree in *. split.
  - intros sub Hsub. rewrite foldl_app, Ht. simpl.
    by apply (walk_onto_directory _ _ _ sub).
  - intros pre rest c more Hseg Hrest Hfile.
    rewrite foldl_app, Ht. simpl. rewrite Hseg.
    rewrite (walk_below_file pre rest _ c t) by done.
    apply addFile_None.
Qed.

Lemma collision_outcome_witness :
  (∃ t', toFileTree ([("/a/b", document "/a/b" "X")]
                     ++ [("/a", document "/a" "Y")]) = Some t' ∧
         entryAt ["a"] t' = Some (FileNode (Some "Y"))) ∧
  toFileTree ([("/a", document "/a" "Y")]
              ++ ("/a/b", document "/a/b" "X")
              :: [("/c", document "/c" "Z")]) = None.
Proof.
  split.
  - refine (proj1 (collision_outcome
              [("/a/b", document "/a/b" "X")]
              (Tree ObjectPrototype
                 {[ "a" := DirectoryNode
                             (Tree ObjectPrototype
                                {[ "b" := FileNode (Some "X") ]}) ]})
              "/a" (document "/a" "Y") _)
            (Tree ObjectPrototype {[ "b" := FileNode (Some "X") ]}) _);
      vm_compute; reflexivity.
  - refine (proj2 (collision_outcome
              [("/a", document "/a" "Y")]
              (Tree ObjectPrototype {[ "a" := FileNode (Some "Y") ]})
              "/a/b" (document "/a/b" "X") _)
            ["a"] ["b"] (Some "Y") [("/c", document "/c" "Z")] _ _ _).
    + vm_compute; reflexivity.
    + vm_compute; reflexivity.
    + discriminate.
    + vm_compute; reflexivity.
Defined.

(** C5, counterexample.  The keys ['/a'] and ['a'] are different keys of
    one mapping and name the same path; the two enumeration orders give
    trees that differ in the contents of the file [a]. *)
Lemma order_matters :
  [("/a", document "/a" "X"); ("a", document "a" "Y")]
  ≡ₚ [("a", document "a" "Y"); ("/a", document "/a" "X")] ∧
  toFileTree [("/a", document "/a" "X"); ("a", document "a" "Y")]
  = Some (Tree ObjectPrototype {[ "a" := FileNode (Some "Y") ]}) ∧
  toFileTree [("a", document "a" "Y"); ("/a", document "/a" "X")]
  = Some (Tree ObjectPrototype {[ "a" := FileNode (Some "X") ]}) ∧
  toFileTree [("/a", document "/a" "X"); ("a", document "a" "Y")]
  ≠ toFileTree [("a", document "a" "Y"); ("/a", document "/a" "X")].
Proof.
  split; [apply perm_swap|].
  assert (toFileTree [("/a", document "/a" "X"); ("a", document "a" "Y")]
          = Some (Tree ObjectPrototype {[ "a" := FileNode (Some "Y") ]}))
    as H1 by (vm_compute; reflexivity).
  assert (toFileTree [("a", document "a" "Y"); ("/a", document "/a" "X")]
          = Some (Tree ObjectPrototype {[ "a" := FileNode (Some "X") ]}))
    as H2 by (vm_compute; reflexivity).
  split; [exact H1|]. split; [exact H2|].
  rewrite H1, H2. intros H.
  apply (f_equal (λ o, t ← o; entryAt ["a"] t)) in H.
  vm_compute in H. discriminate.
Qed.

(** C5, as the code behaves.  When no segment is ["__proto__"] and no two
    keys of the mapping name the same path or a path and something below
    it, every enumeration order of the mapping has the same outcome: the
    same tree, or in every order a [TypeError]. *)
Theorem order_irrelevant (files1 files2 : Files) :
  NoDup files1.*1 → separated files1 → files1 ≡ₚ files2 →
  toFileTree files1 = toFileTree files2.
Proof.
  intros Hnd Hsep Hp. unfold toFileTree.
  apply foldl_addFile_perm; auto using separated_apart.
Qed.

Lemma order_irrelevant_witness :
  toFileTree sampleFiles = toFileTree (reverse sampleFiles).
Proof.
  apply (order_irrelevant sampleFiles (reverse sampleFiles)).
  - by compute_done.
  - by compute_done.
  - symmetry. apply reverse_Permutation.
Defined.

(** Why ["__proto__"] is excluded: the assignment to that name changes
    what the root inherits, so a later path through [file] throws, while
    the other order builds a tree. *)
Example proto_order_matters :
  toFileTree [("/__proto__", document "/__proto__" "X");
              ("/file/x", document "/file/x" "Y")] = None ∧
  is_Some (toFileTree [("/file/x", document "/file/x" "Y");
                       ("/__proto__", document "/__proto__" "X")]).
Proof. split; [by vm_compute | vm_compute; eauto]. Qed.

(** A directory segment that is a property of [Object.prototype] makes
    the call throw, in either order. *)
Example inherited_name_throws :
  toFileTree [("/constructor/x", document "/constructor/x" "X")] = None.
Proof. by vm_compute. Qed.

End PathTreeClaims.

(** ** Document store *)

Section StoreClaims.

Import Store.

Lemma changeUpdater_lookup selectedFile content (docs : Documents) :
  value <$> changeUpdater selectedFile content docs !! selectedFile
  = Some (Some content).
Proof. unfold changeUpdater. by rewrite lookup_insert_eq. Qed.

(** C7, counterexample.  The call does not change the store the component
    reads, and the write can be requested before React renders again: with
    the sample store, after the synchronous part of [onChange] the rendered
    document of the selected file still has its old value and no write has
    been requested (none is, as long as the container promise is pending);
    after the part that follows the first [await] the write has been
    requested with the new content while the rendered value is still the
    old one. *)
Lemma write_before_render :
  rendered (runPieces 1 (onChange "/src/index.js" "new") sampleEditor)
    !! "/src/index.js" ≫= value = Some "js" ∧
  writeFileCalls (runPieces 1 (onChange "/src/index.js" "new") sampleEditor)
  = [] ∧
  rendered (runPieces 2 (onChange "/src/index.js" "new") sampleEditor)
    !! "/src/index.js" ≫= value = Some "js" ∧
  writeFileCalls (runPieces 2 (onChange "/src/index.js" "new") sampleEditor)
  = [("/src/index.js", "new")].
Proof. repeat split; vm_compute; reflexivity. Qed.

(** C7, as the code behaves.  The synchronous part of [onChange] queues
    the update and requests no write: the rendered store is unchanged, and
    as soon as React renders, the selected path reads the new content.
    The part after the first [await] requests the write-through once, with
    the path and content of the call, whatever ran in between and whether
    React has rendered before it or renders after it.  A call that has run
    to its end has requested the write exactly once and has not itself
    changed the rendered store; after the next render the path reads the
    new content. *)
Theorem change_queued_then_written (selectedFile content : string)
    (e : Editor) :
  let call := onChange selectedFile content in
  let queued := runPieces 1 call e in
  (rendered queued = rendered e ∧
   writeFileCalls queued = writeFileCalls e ∧
   value <$> rendered (render queued) !! selectedFile = Some (Some content)) ∧
  (∀ between : Editor → Editor,
     call !! 1 = Some (writeFile selectedFile content) ∧
     writeFileCalls (writeFile selectedFile content (between queued))
     = writeFileCalls (between queued) ++ [(selectedFile, content)] ∧
     render (writeFile selectedFile content (between queued))
     = writeFile selectedFile content (render (between queued))) ∧
  (rendered (complete call e) = rendered e ∧
   writeFileCalls (complete call e)
   = writeFileCalls e ++ [(selectedFile, content)] ∧
   value <$> rendered (render (complete call e)) !! selectedFile
   = Some (Some content)).
Proof.
  intros call queued. split; [|split].
  - split; [done|]. split; [done|]. apply changeUpdater_lookup.
  - intros between. split; [done|]. split; done.
  - split; [done|]. split; [done|]. apply changeUpdater_lookup.
Qed.

(** C10. [onScroll] on the selected file leaves every other path of the
    store as it was and, in the selected file's document, replaces the
    scroll position only: value, loading flag and file path are those of
    the document before.  No write-through is requested. *)
Theorem scroll_frame (selectedFile : string) (scroll' : ScrollPosition)
    (e : Editor) :
  let e' := onScroll selectedFile scroll' e in
  (∀ path, path ≠ selectedFile →
           documents e' !! path = documents e !! path) ∧
  (∀ d, documents e !! selectedFile = Some d →
        documents e' !! selectedFile
        = Some {| filePath := filePath d; loading := loading d;
                  value := value d; scroll := Some scroll' |}) ∧
  writeFileCalls e' = writeFileCalls e.
Proof.
  intros e'. subst e'. unfold onScroll, setDocuments, scrollUpdater; simpl.
  split; [|split].
  - intros path Hne. by rewrite lookup_insert_ne.
  - intros d Hd. rewrite lookup_insert_eq. unfold spread. by rewrite Hd.
  - done.
Qed.

Lemma scroll_frame_witness :
  documents (onScroll "/src/index.js" (mkScroll 12 0) sampleEditor)
    !! "/package.json"
  = documents sampleEditor !! "/package.json" ∧
  documents (onScroll "/src/index.js" (mkScroll 12 0) sampleEditor)
    !! "/src/index.js"
  = Some {| filePath := Some "/src/index.js"; loading := Some false;
            value := Some "js"; scroll := Some (mkScroll 12 0) |}.
Proof.
  destruct (scroll_frame "/src/index.js" (mkScroll 12 0) sampleEditor)
    as (H1 & H2 & _).
  split.
  - apply H1. discriminate.
  - apply (H2 (document "/src/index.js" "js")).
    vm_compute. reflexivity.
Defined.

End StoreClaims.


(** ** Path tree builder: segments, lookups and well-formed mappings *)

Section PathTreeMore.

Import PathTree TreeShape.

(** *** [split] and [segments] *)

Lemma split_nonempty s : split s ≠ [].
Proof.
  destruct s as [|c s]; simpl; [done|].
  case_bool_decide; [done|]. by destruct (split s).
Qed.

Lemma split_app a b :
  split (a +:+ String Chars.SLASH b) = split a ++ split b.
Proof.
  induction a as [|c a IH]; simpl.
  - done.
  - case_bool_decide; [by rewrite IH|].
    rewrite IH. pose proof (split_nonempty a). by destruct (split a).
Qed.

Lemma segments_app a b :
  segments (a +:+ String Chars.SLASH b) = segments a ++ segments b.
Proof. unfold segments. by rewrite split_app, List.filter_app. Qed.

Lemma split_slashFree s : Forall slashFree (split s).
Proof.
  induction s as [|c s IH]; simpl.
  - constructor; [|done]. intros [|? ?] post; done.
  - case_bool_decide as Hc.
    + constructor; [|done]. intros [|? ?] post; done.
    + pose proof (split_nonempty s). destruct (split s) as [|w ws]; [done|].
      apply Forall_cons in IH as [Hw Hws]. constructor; [|done].
      intros [|c' pre] post; simpl.
      * intros [= -> _]. done.
      * intros [= _ ->]. by apply (Hw pre post).
Qed.

Lemma segments_wellformed s :
  Forall (λ seg, seg ≠ EmptyString ∧ slashFree seg) (segments s).
Proof.
  unfold segments. apply Forall_forall. intros seg Hin.
  apply list_elem_of_In, List.filter_In in Hin as [Hin Hne].
  split.
  - intros ->. done.
  - pose proof (split_slashFree s) as H. rewrite Forall_forall in H.
    apply H. by apply list_elem_of_In.
Qed.

Lemma segments_onlySlashes s : onlySlashes s = true ↔ segments s = [].
Proof.
  unfold segments. induction s as [|c s IH]; simpl; [done|].
  case_bool_decide as Hc; simpl.
  - done.
  - pose proof (split_nonempty s). destruct (split s) as [|w ws]; [done|].
    simpl. done.
Qed.

(** *** Lookups after one insertion *)

Ltac unbind' := cbv beta iota delta [mbind option_bind].

Lemma entryAt_emptyTree p : entryAt p emptyTree = None.
Proof.
  destruct p as [|n r]; [done|]. cbn [entryAt]. unfold get, emptyTree; simpl.
  case_bool_decide; [done|]. rewrite lookup_empty. by destruct (inherited _ _).
Qed.

Lemma entryAt_below n m r t :
  entryAt (n :: m :: r) t
  = match get t n with
    | Node (DirectoryNode directory) => entryAt (m :: r) directory
    | _ => None
    end.
Proof. cbn [entryAt]. by destruct (get t n) as [|[]|]. Qed.

Lemma entryAt_proto p pr pr' o : entryAt p (Tree pr o) = entryAt p (Tree pr' o).
Proof.
  destruct p as [|n r]; [done|]. cbn [entryAt]. unfold get; simpl.
  case_bool_decide; [done|]. destruct (o !! n); [done|].
  by destruct (inherited pr n), (inherited pr' n).
Qed.

Lemma descend_Some t n d0 :
  descend t n = Some d0 →
  n ≠ PROTO ∧
  ((get t n = Undefined ∧ d0 = emptyTree)
   ∨ get t n = Node (DirectoryNode d0)).
Proof.
  intros Hd. split.
  - intros ->. by rewrite descend_PROTO in Hd.
  - unfold descend in Hd. destruct (get t n) as [|[c|dir]|]; try done.
    + left. by injection Hd as <-.
    + right. by injection Hd as <-.
Qed.

Lemma walk_cons_Some n r c t t' :
  r ≠ [] → walk (n :: r) c t = Some t' →
  ∃ d0 d', descend t n = Some d0 ∧ walk r c d0 = Some d' ∧
           t' = setDirectory t n d'.
Proof.
  intros Hr. rewrite walk_cons by done. unbind'.
  destruct (descend t n) as [d0|]; [|done].
  destruct (walk r c d0) as [d'|] eqn:Hw; [|done].
  intros [= <-]. eauto.
Qed.

(** The file written last is found at its path. *)
Lemma entryAt_walk_same p c t t' :
  walk p c t = Some t' → p ≠ [] → PROTO ∉ p →
  entryAt p t' = Some (FileNode c).
Proof.
  revert t t'. induction p as [|n r IH]; intros t t' Hw Hne Hp; [done|].
  apply not_elem_of_cons in Hp as [Hn Hr].
  destruct r as [|m r].
  - injection Hw as <-. cbn [entryAt]. by rewrite get_setFile_eq.
  - apply walk_cons_Some in Hw as (d0 & d' & Hd & Hw & ->); [|done].
    cbn [entryAt]. rewrite get_setDirectory_eq by done.
    by apply (IH d0).
Qed.

(** Paths that neither lead to the written path nor lie below it are
    untouched. *)
Lemma entryAt_walk_other p q c t t' :
  walk p c t = Some t' → ¬ p `prefix_of` q → ¬ q `prefix_of` p →
  entryAt q t' = entryAt q t.
Proof.
  revert q t t'. induction p as [|n r IH]; intros q t t' Hw Hpq Hqp.
  { destruct Hpq. by exists q. }
  destruct q as [|m q]; [destruct Hqp; by eexists|].
  destruct r as [|n' r].
  - injection Hw as <-. unfold setFile. case_bool_decide as Hn.
    + destruct t as [pr o]. apply entryAt_proto.
    + destruct (decide (n = m)) as [<-|Hnm].
      { destruct Hpq. by exists q. }
      cbn [entryAt].
      assert (get (Tree (proto t) (<[n:=FileNode c]> (own t))) m = get t m)
        as ->; [|done].
      unfold get; simpl. by rewrite lookup_insert_ne.
  - apply walk_cons_Some in Hw as (d0 & d' & Hd & Hw & ->); [|done].
    apply descend_Some in Hd as [Hn Hd].
    destruct (decide (n = m)) as [<-|Hnm].
    + cbn [entryAt]. rewrite get_setDirectory_eq by done.
      destruct q as [|m' q]; [destruct Hqp; by eexists|].
      assert (entryAt (m' :: q) d' = entryAt (m' :: q) d0) as ->.
      { apply (IH _ _ _ Hw).
        - intros [k Hk]. apply Hpq. exists k. by rewrite Hk.
        - intros [k Hk]. apply Hqp. exists k. by rewrite Hk. }
      destruct Hd as [[-> ->]| ->]; [|done].
      by rewrite entryAt_emptyTree.
    + cbn [entryAt]. by rewrite get_setDirectory_ne.
Qed.

Lemma readAt_below n m r t :
  readAt (n :: m :: r) t = d ← descend t n; readAt (m :: r) d.
Proof. reflexivity. Qed.

Lemma descend_setNode_ne t n m e :
  n ≠ m → descend (Tree (proto t) (<[n:=e]> (own t))) m = descend t m.
Proof.
  intros Hne. unfold descend, get; simpl. by rewrite lookup_insert_ne.
Qed.

(** Without ["__proto__"] in the written path, the loop reads at every
    unrelated path what it read before. *)
Lemma readAt_walk_other p q c t t' :
  walk p c t = Some t' → PROTO ∉ p →
  ¬ p `prefix_of` q → ¬ q `prefix_of` p →
  readAt q t' = readAt q t.
Proof.
  revert q t t'. induction p as [|n r IH]; intros q t t' Hw Hp Hpq Hqp.
  { destruct Hpq. by exists q. }
  apply not_elem_of_cons in Hp as [Hn Hr].
  destruct q as [|m q]; [destruct Hqp; by eexists|].
  destruct r as [|n' r].
  - injection Hw as <-. unfold setFile. rewrite bool_decide_false by done.
    destruct (decide (n = m)) as [<-|Hnm].
    { destruct Hpq. by exists q. }
    destruct q as [|m' q].
    + cbn [readAt]. f_equal. unfold get; simpl. by rewrite lookup_insert_ne.
    + rewrite !readAt_below. by rewrite descend_setNode_ne.
  - apply walk_cons_Some in Hw as (d0 & d' & Hd & Hw & ->); [|done].
    destruct (decide (n = m)) as [<-|Hnm].
    + destruct q as [|m' q]; [destruct Hqp; by eexists|].
      rewrite !readAt_below, descend_setDirectory_eq, Hd by done.
      cbv beta iota delta [mbind option_bind].
      apply (IH _ _ _ Hw Hr).
      * intros [k Hk]. apply Hpq. exists k. by rewrite Hk.
      * intros [k Hk]. apply Hqp. exists k. by rewrite Hk.
    + destruct q as [|m' q].
      * cbn [readAt]. f_equal. by apply get_setDirectory_ne.
      * rewrite !readAt_below. unfold setDirectory.
        by rewrite descend_setNode_ne.
Qed.

(** A file node found after an insertion is the one just written or was
    there before. *)
Lemma entryAt_walk_file p q c c' t t' :
  walk p c t = Some t' → entryAt q t' = Some (FileNode c') →
  (q = p ∧ c' = c) ∨ entryAt q t = Some (FileNode c').
Proof.
  revert q t t'. induction p as [|n r IH]; intros q t t' Hw.
  { injection Hw as <-. by right. }
  destruct q as [|m q]; [done|].
  destruct r as [|n' r].
  - injection Hw as <-. unfold setFile. case_bool_decide as Hn.
    + destruct t as [pr o]. rewrite (entryAt_proto _ _ pr). by right.
    + destruct (decide (n = m)) as [<-|Hnm].
      * cbn [entryAt].
        assert (get (Tree (proto t) (<[n:=FileNode c]> (own t))) n
                = Node (FileNode c)) as ->.
        { unfold get; simpl. rewrite bool_decide_false by done.
          by rewrite lookup_insert_eq. }
        destruct q; [|done]. intros [= <-]. by left.
      * cbn [entryAt].
        assert (get (Tree (proto t) (<[n:=FileNode c]> (own t))) m = get t m)
          as ->; [|by right].
        unfold get; simpl. by rewrite lookup_insert_ne.
  - apply walk_cons_Some in Hw as (d0 & d' & Hd & Hw & ->); [|done].
    apply descend_Some in Hd as [Hn Hd].
    destruct (decide (n = m)) as [<-|Hnm].
    + cbn [entryAt]. rewrite get_setDirectory_eq by done.
      destruct q as [|m' q]; [done|]. intros Hq.
      destruct (IH _ _ _ Hw Hq) as [[-> ->]|Hold]; [by left|right].
      destruct Hd as [[_ ->]| ->]; [|done].
      by rewrite entryAt_emptyTree in Hold.
    + cbn [entryAt]. rewrite get_setDirectory_ne by done. by right.
Qed.

(** *** Prototypes stay in place without ["__proto__"] *)

Lemma plain_emptyTree : plain emptyTree.
Proof.
  intros [|n r] d; simpl; [by intros [= <-]|].
  unfold get, emptyTree; simpl. case_bool_decide; [done|].
  rewrite lookup_empty. by destruct (inherited _ _).
Qed.

Lemma plain_directory t n dir :
  plain t → get t n = Node (DirectoryNode dir) → plain dir.
Proof.
  intros Ht Hg path d Hd. apply (Ht (n :: path)). simpl. by rewrite Hg.
Qed.

Lemma plain_descend t n d0 : plain t → descend t n = Some d0 → plain d0.
Proof.
  intros Ht Hd. apply descend_Some in Hd as [_ [[_ ->]|Hg]].
  - apply plain_emptyTree.
  - by apply (plain_directory t n).
Qed.

Lemma plain_walk p c t t' :
  walk p c t = Some t' → PROTO ∉ p → plain t → plain t'.
Proof.
  revert t t'. induction p as [|n r IH]; intros t t' Hw Hp Ht.
  { by injection Hw as <-. }
  apply not_elem_of_cons in Hp as [Hn Hr].
  destruct r as [|n' r].
  - injection Hw as <-. unfold setFile. rewrite bool_decide_false by done.
    intros [|m path] d; simpl.
    + intros [= <-]. simpl. by apply (Ht [] t).
    + destruct (decide (n = m)) as [<-|Hnm].
      * unfold get; simpl. rewrite bool_decide_false by done.
        by rewrite lookup_insert_eq.
      * assert (get (Tree (proto t) (<[n:=FileNode c]> (own t))) m = get t m)
          as ->.
        { unfold get; simpl. by rewrite lookup_insert_ne. }
        intros Hd. apply (Ht (m :: path)). done.
  - apply walk_cons_Some in Hw as (d0 & d' & Hd & Hw & ->); [|done].
    assert (plain d') as Hd' by (apply (IH d0); eauto using plain_descend).
    intros [|m path] d; simpl.
    + intros [= <-]. simpl. by apply (Ht [] t).
    + destruct (decide (n = m)) as [<-|Hnm].
      * rewrite get_setDirectory_eq by done. apply Hd'.
      * rewrite get_setDirectory_ne by done. intros Hdir.
        apply (Ht (m :: path)). done.
Qed.

(** *** When the loop cannot throw *)

Lemma walk_succeeds p c t :
  plain t → PROTO ∉ p →
  Forall (λ seg, seg ∉ objectPrototypeNames) (removelast p) →
  (∀ pre rest c', p = pre ++ rest → rest ≠ [] →
                  entryAt pre t ≠ Some (FileNode c')) →
  is_Some (walk p c t).
Proof.
  revert t. induction p as [|n r IH]; intros t Ht Hp Hsafe Hfree; [by eexists|].
  apply not_elem_of_cons in Hp as [Hn Hr].
  destruct r as [|n' r]; [by eexists|].
  change (removelast (n :: n' :: r)) with (n :: removelast (n' :: r)) in Hsafe.
  apply Forall_cons in Hsafe as [Hsn Hsafe].
  rewrite walk_cons by done. unfold descend.
  destruct (get t n) as [|[c0|dir]|] eqn:Hg.
  - unbind'.
    destruct (IH emptyTree plain_emptyTree Hr Hsafe) as [d' ->]; [|by eexists].
    intros pre rest c' _ _. by rewrite entryAt_emptyTree.
  - destruct (Hfree [n] (n' :: r) c0); [done|done|].
    cbn [entryAt]. by rewrite Hg.
  - unbind'.
    destruct (IH dir (plain_directory _ _ _ Ht Hg) Hr Hsafe) as [d' ->];
      [|by eexists].
    intros pre rest c' Heq Hrest Hfile.
    destruct pre as [|m pre]; [done|].
    apply (Hfree (n :: m :: pre) rest c'); [by rewrite Heq|done|].
    cbn [entryAt]. by rewrite Hg.
  - exfalso. unfold get in Hg. rewrite bool_decide_false in Hg by done.
    destruct (own t !! n); [done|].
    rewrite (Ht [] t eq_refl) in Hg. unfold inherited in Hg.
    rewrite orb_false_r in Hg.
    case_bool_decide; done.
Qed.

(** A directory stays a directory unless a file is written onto it or
    above it. *)
Lemma directory_stays q pre c t t' sub :
  walk q c t = Some t' → entryAt pre t = Some (DirectoryNode sub) →
  ¬ q `prefix_of` pre →
  ∃ sub', entryAt pre t' = Some (DirectoryNode sub').
Proof.
  revert pre t t' sub. induction q as [|n r IH]; intros pre t t' sub Hw Hd Hq.
  { destruct Hq. by exists pre. }
  destruct pre as [|m pre]; [done|].
  destruct r as [|n' r].
  - injection Hw as <-. unfold setFile. case_bool_decide as Hn.
    + destruct t as [pr o]. rewrite (entryAt_proto _ _ pr). eauto.
    + destruct (decide (n = m)) as [<-|Hnm].
      { destruct Hq. by exists pre. }
      exists sub. rewrite <- Hd. cbn [entryAt].
      assert (get (Tree (proto t) (<[n:=FileNode c]> (own t))) m = get t m)
        as ->; [|done].
      unfold get; simpl. by rewrite lookup_insert_ne.
  - apply walk_cons_Some in Hw as (d0 & d' & Hd0 & Hw & ->); [|done].
    apply descend_Some in Hd0 as [Hn Hd0].
    destruct (decide (n = m)) as [<-|Hnm].
    + cbn [entryAt]. rewrite get_setDirectory_eq by done.
      destruct pre as [|m' pre]; [eauto|].
      rewrite entryAt_below in Hd.
      destruct Hd0 as [[Hg _]|Hg]; rewrite Hg in Hd; [done|].
      apply (IH _ _ _ _ Hw Hd).
      intros [k Hk]. apply Hq. exists k. by rewrite Hk.
    + exists sub. rewrite <- Hd. cbn [entryAt].
      by rewrite get_setDirectory_ne.
Qed.

(** Every proper prefix of the written path is a directory afterwards. *)
Lemma prefixes_are_directories p c t t' pre rest :
  walk p c t = Some t' → p = pre ++ rest → pre ≠ [] → rest ≠ [] →
  ∃ sub, entryAt pre t' = Some (DirectoryNode sub).
Proof.
  revert t t' pre. induction p as [|n r IH]; intros t t' pre Hw Hp Hpre Hrest.
  { by destruct pre. }
  destruct pre as [|m pre]; [done|]. injection Hp as <- Hr.
  assert (r ≠ []) as Hne by (rewrite Hr; destruct pre, rest; done).
  apply walk_cons_Some in Hw as (d0 & d' & Hd0 & Hw & ->); [|done].
  apply descend_Some in Hd0 as [Hn _].
  cbn [entryAt]. rewrite get_setDirectory_eq by done.
  destruct pre as [|m' pre]; [eauto|].
  by apply (IH d0 d' (m' :: pre)).
Qed.

(** *** The whole mapping *)

Lemma toFileTree_snoc files k d :
  toFileTree (files ++ [(k, d)])
  = t ← toFileTree files; walk (segments k) (value d) t.
Proof. unfold toFileTree. by rewrite foldl_app. Qed.

Lemma toFileTree_snoc_Some files k d t' :
  toFileTree (files ++ [(k, d)]) = Some t' →
  ∃ t, toFileTree files = Some t ∧ walk (segments k) (value d) t = Some t'.
Proof.
  rewrite toFileTree_snoc. destruct (toFileTree files) as [t|]; [|done].
  eauto.
Qed.

Lemma apart_app_l l1 l2 : apart (l1 ++ l2) → apart l1.
Proof.
  intros [H1 H2]. split.
  - intros k Hk. apply H1. rewrite fmap_app. apply elem_of_app. by left.
  - intros k1 k2 Hk1 Hk2. apply H2; rewrite fmap_app; apply elem_of_app; by left.
Qed.

Lemma built_files_sound files t p c :
  toFileTree files = Some t → entryAt p t = Some (FileNode c) →
  ∃ k d, (k, d) ∈ files ∧ segments k = p ∧ value d = c.
Proof.
  revert t. induction files as [|[k d] files IH] using rev_ind; intros t Ht Hp.
  { injection Ht as <-. by rewrite entryAt_emptyTree in Hp. }
  apply toFileTree_snoc_Some in Ht as (t0 & Ht0 & Hw).
  destruct (entryAt_walk_file _ _ _ _ _ _ Hw Hp) as [[-> ->]|Hold].
  - exists k, d. split; [|done]. apply elem_of_app. right. by left.
  - destruct (IH _ Ht0 Hold) as (k' & d' & Hin & Hk').
    exists k', d'. split; [|done]. apply elem_of_app. by left.
Qed.

Lemma built_plain files t :
  toFileTree files = Some t →
  (∀ k, k ∈ files.*1 → PROTO ∉ segments k) → plain t.
Proof.
  revert t. induction files as [|[k d] files IH] using rev_ind; intros t Ht Hp.
  { injection Ht as <-. apply plain_emptyTree. }
  apply toFileTree_snoc_Some in Ht as (t0 & Ht0 & Hw).
  apply (plain_walk _ _ _ _ Hw).
  - apply Hp. rewrite fmap_app. apply elem_of_app. right. by left.
  - apply IH; [done|]. intros k' Hk'. apply Hp. rewrite fmap_app.
    apply elem_of_app. by left.
Qed.

Lemma key_of_entry (files : Files) k d : (k, d) ∈ files → k ∈ files.*1.
Proof. intros H. apply list_elem_of_fmap. by exists (k, d). Qed.

Lemma built_files_complete files t :
  NoDup files.*1 → apart files → toFileTree files = Some t →
  ∀ k d, (k, d) ∈ files → segments k ≠ [] →
    entryAt (segments k) t = Some (FileNode (value d)) ∧
    ∀ pre rest, segments k = pre ++ rest → pre ≠ [] → rest ≠ [] →
      ∃ sub, entryAt pre t = Some (DirectoryNode sub).
Proof.
  revert t. induction files as [|[k0 d0] files IH] using rev_ind;
    intros t Hnd Hap Ht k d Hin Hne.
  { by apply elem_of_nil in Hin. }
  apply toFileTree_snoc_Some in Ht as (t0 & Ht0 & Hw). simpl in Hw.
  rewrite fmap_app in Hnd. apply NoDup_app in Hnd as (Hnd & Hfresh & _).
  pose proof (apart_app_l _ _ Hap) as Hap0.
  destruct Hap as [Hproto Hclash].
  assert (k0 ∈ (files ++ [(k0, d0)]).*1) as Hk0.
  { rewrite fmap_app. apply elem_of_app. right. by left. }
  apply elem_of_app in Hin as [Hin|Hin].
  - (* an earlier key: untouched by the last insertion *)
    assert (k ∈ files.*1) as Hk by by apply (key_of_entry _ _ d).
    assert (k ≠ k0) as Hkk0.
    { intros ->. apply (Hfresh k0 Hk). by left. }
    assert (k ∈ (files ++ [(k0, d0)]).*1) as Hk'.
    { rewrite fmap_app. apply elem_of_app. by left. }
    destruct (IH t0 Hnd Hap0 Ht0 k d Hin Hne) as [Hfile Hdirs].
    assert (¬ segments k `prefix_of` segments k0) as Hpre1.
    { intros Hp. by apply (Hclash k k0 Hk' Hk0 Hkk0). }
    destruct (decide (segments k0 = [])) as [He|He].
    { rewrite He in Hw. injection Hw as <-. by split. }
    assert (¬ segments k0 `prefix_of` segments k) as Hpre2.
    { intros Hp. by apply (Hclash k0 k Hk0 Hk' (not_eq_sym Hkk0)). }
    split.
    + by rewrite (entryAt_walk_other _ _ _ _ _ Hw Hpre2 Hpre1).
    + intros pre rest Hseg Hpre Hrest.
      destruct (Hdirs pre rest Hseg Hpre Hrest) as [sub Hsub].
      apply (directory_stays _ _ _ _ _ _ Hw Hsub).
      intros [k' Hk'']. apply Hpre2. exists (k' ++ rest).
      by rewrite Hseg, Hk'', <- app_assoc.
  - (* the key written last *)
    apply list_elem_of_singleton in Hin as [= -> ->]. split.
    + apply (entryAt_walk_same _ _ _ _ Hw Hne). by apply Hproto.
    + intros pre rest Hseg Hpre Hrest.
      by apply (prefixes_are_directories _ _ _ _ pre rest Hw).
Qed.

Lemma built_succeeds files :
  NoDup files.*1 → apart files → safeDirectories files →
  is_Some (toFileTree files).
Proof.
  induction files as [|[k d] files IH] using rev_ind; intros Hnd Hap Hsafe.
  { by eexists. }
  pose proof (apart_app_l _ _ Hap) as Hap0.
  unfold safeDirectories in *. rewrite fmap_app in Hnd, Hsafe.
  apply Forall_app in Hsafe as [Hsafe0 Hsafek].
  simpl in Hsafek. apply Forall_cons in Hsafek as [Hsafek _].
  apply NoDup_app in Hnd as (Hnd & Hfresh & _).
  destruct (IH Hnd Hap0 Hsafe0) as [t Ht].
  rewrite toFileTree_snoc, Ht. simpl.
  destruct Hap as [Hproto Hclash].
  assert (k ∈ (files ++ [(k, d)]).*1) as Hk.
  { rewrite fmap_app. apply elem_of_app. right. by left. }
  apply walk_succeeds.
  - apply (built_plain files); [done|]. by destruct Hap0.
  - by apply Hproto.
  - exact Hsafek.
  - intros pre rest c' Hseg Hrest Hfile.
    destruct (built_files_sound _ _ _ _ Ht Hfile) as (k' & d' & Hin & Hk' & _).
    assert (k' ∈ files.*1) as Hk'in by by apply (key_of_entry _ _ d').
    apply (Hclash k' k).
    + rewrite fmap_app. apply elem_of_app. by left.
    + done.
    + intros ->. apply (Hfresh k Hk'in). by left.
    + split.
      * rewrite Hk'. intros ->. simpl in Hfile. discriminate.
      * exists rest. by rewrite Hk'.
Qed.

Lemma skip_slash_key (acc : option FileSystemTree) k d :
  onlySlashes k = true → addFile acc (k, d) = acc.
Proof.
  intros Hk. apply segments_onlySlashes in Hk.
  unfold addFile. simpl. rewrite Hk. by destruct acc.
Qed.

End PathTreeMore.

Section PathTreeExtras.

Import PathTree TreeShape.

(** X1. Path segmentation treats every ['/'] as a separator and drops the
    empty pieces: the segments of [a/b] are those of [a] followed by those
    of [b]; every segment is a non-empty string without ['/']; and a path
    has no segment at all exactly when it consists of slashes only (the
    empty path included). *)
Theorem segments_normalised :
  (∀ a b, segments (a +:+ String Chars.SLASH b) = segments a ++ segments b) ∧
  (∀ s, Forall (λ seg, seg ≠ EmptyString ∧ slashFree seg) (segments s)) ∧
  (∀ s, onlySlashes s = true ↔ segments s = []).
Proof.
  split; [|split].
  - apply segments_app.
  - apply segments_wellformed.
  - apply segments_onlySlashes.
Qed.

(** X2. Last write wins: whenever the call returns, the key enumerated
    last is found in the tree as a file with the value of its document,
    whatever the earlier keys had put at that path, provided its path has a
    segment and none of its segments is ["__proto__"]. *)
Theorem last_key_is_found (files : Files) (k : string) (d : EditorDocument)
    (t' : FileSystemTree) :
  toFileTree (files ++ [(k, d)]) = Some t' →
  segments k ≠ [] → PROTO ∉ segments k →
  entryAt (segments k) t' = Some (FileNode (value d)).
Proof.
  intros Ht Hne Hp.
  apply toFileTree_snoc_Some in Ht as (t & _ & Hw).
  by apply (entryAt_walk_same _ _ _ _ Hw).
Qed.

Lemma last_key_is_found_witness :
  entryAt (segments "/src/index.js")
    (Tree ObjectPrototype
       {[ "src" := DirectoryNode
                     (Tree ObjectPrototype
                        {[ "index.js" := FileNode (Some "new") ]}) ]})
  = Some (FileNode (value (document "/src/index.js" "new"))).
Proof.
  apply (last_key_is_found [("src/index.js", document "src/index.js" "old")]
           "/src/index.js" (document "/src/index.js" "new")).
  - vm_compute. reflexivity.
  - by vm_compute.
  - by compute_done.
Defined.

(** X3. Adding a key without ["__proto__"] segment leaves alone every
    path that is neither a prefix of the new key's path nor below it: the
    node stored at such a path is the one stored before, and the loop
    arriving there reads what it read before, be it a node, [undefined] or
    an inherited value. *)
Theorem unrelated_paths_untouched (files : Files) (k : string)
    (d : EditorDocument) (t t' : FileSystemTree) (q : list string) :
  toFileTree files = Some t →
  toFileTree (files ++ [(k, d)]) = Some t' →
  PROTO ∉ segments k →
  ¬ segments k `prefix_of` q → ¬ q `prefix_of` segments k →
  entryAt q t' = entryAt q t ∧ readAt q t' = readAt q t.
Proof.
  intros Ht Ht' Hp H1 H2. rewrite toFileTree_snoc, Ht in Ht'. simpl in Ht'.
  split.
  - by apply (entryAt_walk_other _ _ _ _ _ Ht').
  - by apply (readAt_walk_other _ _ _ _ _ Ht').
Qed.

Lemma unrelated_paths_untouched_witness :
  entryAt ["src"; "index.js"]
    (Tree ObjectPrototype
       {[ "src" := DirectoryNode
                     (Tree ObjectPrototype
                        {[ "index.js" := FileNode (Some "js");
                           "index.html" := FileNode (Some "html") ]}) ]})
  = entryAt ["src"; "index.js"]
      (Tree ObjectPrototype
         {[ "src" := DirectoryNode
                       (Tree ObjectPrototype
                          {[ "index.js" := FileNode (Some "js") ]}) ]}) ∧
  readAt ["src"; "index.js"]
    (Tree ObjectPrototype
       {[ "src" := DirectoryNode
                     (Tree ObjectPrototype
                        {[ "index.js" := FileNode (Some "js");
                           "index.html" := FileNode (Some "html") ]}) ]})
  = readAt ["src"; "index.js"]
      (Tree ObjectPrototype
         {[ "src" := DirectoryNode
                       (Tree ObjectPrototype
                          {[ "index.js" := FileNode (Some "js") ]}) ]}).
Proof.
  apply (unrelated_paths_untouched
           [("/src/index.js", document "/src/index.js" "js")]
           "/src/index.html" (document "/src/index.html" "html")).
  - vm_compute. reflexivity.
  - vm_compute. reflexivity.
  - by compute_done.
  - by compute_done.
  - by compute_done.
Defined.

(** Why ["__proto__"] is excluded: after the key ['/__proto__'] the root
    answers the name [file] with an inherited value where it answered
    [undefined], although no node is stored there in either tree. *)
Example proto_key_changes_reads :
  toFileTree [("/d", document "/d" "D")]
  = Some (Tree ObjectPrototype {[ "d" := FileNode (Some "D") ]}) ∧
  toFileTree ([("/d", document "/d" "D")]
              ++ [("/__proto__", document "/__proto__" "P")])
  = Some (Tree (FileNodePrototype (Some "P"))
            {[ "d" := FileNode (Some "D") ]}) ∧
  readAt ["file"] (Tree ObjectPrototype {[ "d" := FileNode (Some "D") ]})
  = Some Undefined ∧
  readAt ["file"]
    (Tree (FileNodePrototype (Some "P")) {[ "d" := FileNode (Some "D") ]})
  = Some Foreign.
Proof. repeat split; vm_compute; reflexivity. Qed.

(** X4. For a mapping without collisions (distinct keys, [separated]),
    when the call returns a tree every key with at least one segment is in
    it as a file holding the value of its document, and every proper
    non-empty prefix of its path is a directory. *)
Theorem every_key_is_a_file (files : Files) (t : FileSystemTree)
    (k : string) (d : EditorDocument) :
  NoDup files.*1 → separated files → toFileTree files = Some t →
  (k, d) ∈ files → segments k ≠ [] →
  entryAt (segments k) t = Some (FileNode (value d)) ∧
  ∀ pre rest, segments k = pre ++ rest → pre ≠ [] → rest ≠ [] →
    ∃ sub, entryAt pre t = Some (DirectoryNode sub).
Proof.
  intros Hnd Hsep Ht Hin Hne.
  by apply (built_files_complete files t Hnd (separated_apart _ Hsep) Ht).
Qed.

Lemma every_key_is_a_file_witness :
  entryAt ["src"; "assets"; "logo.svg"] sampleTree = Some (FileNode (Some "svg")) ∧
  ∃ sub, entryAt ["src"; "assets"] sampleTree = Some (DirectoryNode sub).
Proof.
  destruct (every_key_is_a_file sampleFiles sampleTree
              "/src/assets/logo.svg" (document "/src/assets/logo.svg" "svg"))
    as [H1 H2].
  - by compute_done.
  - by compute_done.
  - vm_compute. reflexivity.
  - apply list_elem_of_In. simpl. auto.
  - by vm_compute.
  - split; [exact H1|].
    apply (H2 ["src"; "assets"] ["logo.svg"]); [by vm_compute|done|done].
Defined.

(** X5. Nothing is invented: every file node of a returned tree sits at
    the path of some key of the mapping and holds that key's value. *)
Theorem every_file_has_a_key (files : Files) (t : FileSystemTree)
    (p : list string) (c : option string) :
  toFileTree files = Some t → entryAt p t = Some (FileNode c) →
  ∃ k d, (k, d) ∈ files ∧ segments k = p ∧ value d = c.
Proof. apply built_files_sound. Qed.

Lemma every_file_has_a_key_witness :
  ∃ k d, (k, d) ∈ sampleFiles ∧ segments k = ["src"; "index.html"]
         ∧ value d = Some "html".
Proof.
  apply (every_file_has_a_key sampleFiles sampleTree).
  - vm_compute. reflexivity.
  - vm_compute. reflexivity.
Defined.

(** X6. The call does not throw on a well-formed mapping: with distinct
    keys, no collision and no ["__proto__"] segment ([separated]), and no
    directory segment named like a property of [Object.prototype], a tree
    is returned. *)
Theorem wellformed_mapping_builds (files : Files) :
  NoDup files.*1 → separated files → safeDirectories files →
  is_Some (toFileTree files).
Proof.
  intros Hnd Hsep Hsafe. apply built_succeeds; auto using separated_apart.
Qed.

Lemma wellformed_mapping_builds_witness : is_Some (toFileTree sampleFiles).
Proof.
  apply (wellformed_mapping_builds sampleFiles); by compute_done.
Defined.

(** X7. A key made of slashes only, the empty key included, is skipped:
    the mapping builds the same result with and without it. *)
Theorem slash_only_key_ignored (before after : Files) (k : string)
    (d : EditorDocument) :
  onlySlashes k = true →
  toFileTree (before ++ (k, d) :: after) = toFileTree (before ++ after).
Proof.
  intros Hk. unfold toFileTree. rewrite !foldl_app. simpl.
  by rewrite skip_slash_key.
Qed.

Lemma slash_only_key_ignored_witness :
  toFileTree ([("/a", document "/a" "X")]
              ++ ("//", document "//" "ignored") :: [("/b", document "/b" "Y")])
  = toFileTree ([("/a", document "/a" "X")] ++ [("/b", document "/b" "Y")]).
Proof.
  apply (slash_only_key_ignored [("/a", document "/a" "X")]
           [("/b", document "/b" "Y")] "//" (document "//" "ignored")).
  reflexivity.
Defined.

End PathTreeExtras.

(** ** Shell handshake: what the scanner recognises *)

Section ShellMore.

Import Chars Shell Marker.

Lemma append_String c (a b : string) : String c a +:+ b = String c (a +:+ b).
Proof. reflexivity. Qed.

Lemma append_Empty (b : string) : EmptyString +:+ b = b.
Proof. reflexivity. Qed.

Ltac unappend := rewrite ?append_String, ?append_Empty.

Lemma groupThenBel_sound s g :
  groupThenBel s = Some g →
  g ≠ EmptyString ∧ belFree g ∧ ∃ rest, s = g +:+ String BEL rest.
Proof.
  revert g. induction s as [|c s IH]; intros g; [done|]. cbn [groupThenBel].
  case_bool_decide as Hc; [done|].
  destruct (groupThenBel s) as [g'|] eqn:Hg.
  - intros [= <-]. destruct (IH g' eq_refl) as (Hne & Hfree & rest & ->).
    split; [done|]. split; [|by exists rest].
    intros [|x a] b; unappend.
    + intros [= -> _]. done.
    + intros [= _ Heq]. by apply (Hfree a b).
  - destruct s as [|b s]; [done|]. case_bool_decide as Hb; [|done].
    intros [= <-]. subst b. split; [done|]. split; [|by exists s].
    intros [|x a] b; unappend.
    + intros [= -> _]. done.
    + intros [= _ Heq]. by destruct a.
Qed.

Lemma oscOf_sound data g :
  oscOf data = Some g →
  g ≠ EmptyString ∧ belFree g ∧
  ∃ pre post, data = pre +:+ oscHead +:+ g +:+ String BEL post.
Proof.
  induction data as [|c data IH]; [done|].
  rewrite oscOf_cons. destruct (matchHere (String c data)) as [g'|] eqn:Hm.
  - intros [= ->]. unfold matchHere in Hm.
    destruct (literal oscHead (String c data)) as [rest|] eqn:Hl; [|done].
    apply literal_Some in Hl. simpl in Hm.
    destruct (groupThenBel_sound _ _ Hm) as (Hne & Hfree & post & ->).
    split; [done|]. split; [done|]. by exists EmptyString, post.
  - intros Hg. destruct (IH Hg) as (Hne & Hfree & pre & post & ->).
    split; [done|]. split; [done|]. by exists (String c pre), post.
Qed.

Lemma oscOf_complete pre g post :
  g ≠ EmptyString → belFree g →
  is_Some (oscOf (pre +:+ oscHead +:+ g +:+ String BEL post)).
Proof.
  intros Hne Hfree. induction pre as [|c pre IH].
  - exists g. by apply first_sequence_decides.
  - change (String c pre +:+ oscHead +:+ g +:+ String BEL post)
      with (String c (pre +:+ oscHead +:+ g +:+ String BEL post)).
    rewrite oscOf_cons. by destruct (matchHere _).
Qed.

Lemma interactive_belFree : belFree "interactive".
Proof.
  intros a b H.
  do 11 (destruct a as [|? a];
         rewrite ?append_String, ?append_Empty in H;
         [discriminate|injection H as _ H]).
  by destruct a.
Qed.

(** A head that starts before an ESC cannot reach across it. *)
Lemma no_head_across c pre rest :
  literal oscHead (String c pre) = None →
  literal oscHead (String c pre +:+ String ESC rest) = None.
Proof.
  unfold oscHead. unappend. cbn [literal].
  case_bool_decide; [|done].
  do 5 (destruct pre as [|? pre]; unappend; cbn [literal];
        [done|case_bool_decide; [|done]]).
  done.
Qed.

Lemma includes_cons needle c data :
  includes needle (String c data) = false →
  literal needle (String c data) = None ∧ includes needle data = false.
Proof.
  cbn [includes]. destruct (literal needle (String c data)); [done|]. done.
Qed.

Lemma oscOf_first_marker pre post :
  includes oscHead pre = false →
  oscOf (pre +:+ marker +:+ post) = Some "interactive".
Proof.
  intros Hpre. induction pre as [|c pre IH].
  - apply (first_sequence_decides "interactive" post); [done|].
    apply interactive_belFree.
  - apply includes_cons in Hpre as [Hl Hpre].
    change (String c pre +:+ marker +:+ post)
      with (String c (pre +:+ marker +:+ post)).
    rewrite oscOf_cons.
    assert (matchHere (String c (pre +:+ marker +:+ post)) = None) as ->.
    { unfold matchHere.
      change (String c (pre +:+ marker +:+ post))
        with (String c pre +:+ String ESC ("]654;interactive"
                                            +:+ String BEL post)).
      by rewrite no_head_across. }
    by apply IH.
Qed.

Lemma waiting_stays s ev :
  isInteractive s = false →
  Forall (λ chunk, includes marker chunk = false) (outputChunks [ev]) →
  isInteractive (deliver s ev) = false.
Proof.
  intros Hs Hev. destruct (isInteractive (deliver s ev)) eqn:E; [|done].
  destruct ev as [chunk|data].
  - apply raised_only_by_marker in E; [|done].
    apply Forall_cons in Hev as [Hc _]. congruence.
  - unfold deliver in E. rewrite drain_isInteractive in E. simpl in E.
    unfold onData in E. rewrite Hs in E. congruence.
Qed.

Lemma waiting_stays_all evs s :
  isInteractive s = false →
  Forall (λ chunk, includes marker chunk = false) (outputChunks evs) →
  isInteractive (deliverAll evs s) = false.
Proof.
  revert s. induction evs as [|ev evs IH]; intros s Hs Hevs; [done|].
  change (deliverAll (ev :: evs) s) with (deliverAll evs (deliver s ev)).
  change (ev :: evs) with ([ev] ++ evs) in Hevs.
  unfold outputChunks in Hevs. rewrite omap_app in Hevs.
  apply Forall_app in Hevs as [Hev Hevs].
  apply IH; [|done]. by apply waiting_stays.
Qed.

Lemma interactive_stays_all evs s :
  isInteractive s = true → isInteractive (deliverAll evs s) = true.
Proof.
  revert s. induction evs as [|ev evs IH]; intros s Hs; [done|].
  apply IH. by apply interactive_stays.
Qed.

End ShellMore.

Section ShellExtras.

Import Chars Shell Marker.

(** X8. The flag never reverts: once a session is interactive it stays
    interactive whatever the process prints and the terminal sends
    afterwards. *)
Theorem interactive_never_reverts (s : Session) (pre post : list Event) :
  isInteractive (deliverAll pre s) = true →
  isInteractive (deliverAll (pre ++ post) s) = true.
Proof.
  intros H. rewrite deliverAll_app. by apply interactive_stays_all.
Qed.

Lemma interactive_never_reverts_witness :
  isInteractive
    (deliverAll ([ProcessOutput marker]
                 ++ [ProcessOutput "exit"; TerminalData "x";
                     ProcessOutput promptThenInteractive]) spawned) = true.
Proof.
  apply (interactive_never_reverts spawned [ProcessOutput marker]).
  reflexivity.
Defined.

(** X9. Without the marker there is no input: if no output chunk of a
    trace holds the complete marker, the session is not interactive at the
    end and nothing was written to the shell, neither keystrokes nor the
    bootstrap command. *)
Theorem no_marker_no_input (evs : list Event) :
  Forall (λ chunk, includes marker chunk = false) (outputChunks evs) →
  isInteractive (deliverAll evs spawned) = false ∧
  shellWrites (deliverAll evs spawned) = [].
Proof.
  intros Hevs.
  assert (isInteractive (deliverAll evs spawned) = false) as Hi
    by by apply waiting_stays_all.
  split; [done|].
  destruct (settled_deliverAll evs spawned settled_spawned) as [_ Hs].
  rewrite Hi in Hs. apply Hs.
Qed.

Lemma no_marker_no_input_witness :
  isInteractive
    (deliverAll [ProcessOutput "booting"; TerminalData "ls";
                 ProcessOutput (sequence "prompt"); TerminalData "pwd"]
       spawned) = false ∧
  shellWrites
    (deliverAll [ProcessOutput "booting"; TerminalData "ls";
                 ProcessOutput (sequence "prompt"); TerminalData "pwd"]
       spawned) = [].
Proof.
  apply (no_marker_no_input
           [ProcessOutput "booting"; TerminalData "ls";
            ProcessOutput (sequence "prompt"); TerminalData "pwd"]).
  by compute_done.
Defined.

(** X10. The marker is recognised when nothing of its kind precedes it in
    the chunk: a chunk [pre ++ marker ++ post] whose [pre] holds no
    [ESC ]654;] head, delivered to a session that is not yet interactive,
    makes it interactive, and the bootstrap command is then the one and
    only write the shell has received. *)
Theorem marker_detected (before : list Event) (pre post : string) :
  isInteractive (deliverAll before spawned) = false →
  includes oscHead pre = false →
  let s := deliverAll (before ++ [ProcessOutput (pre +:+ marker +:+ post)])
             spawned in
  isInteractive s = true ∧
  shellWrites s = [mkWrite Bootstrap bootstrapCommand].
Proof.
  intros Hb Hpre s. subst s. rewrite deliverAll_app.
  destruct (settled_deliverAll before spawned settled_spawned) as [Hq Hs].
  rewrite Hb in Hs. destruct Hs as [Hp Hw].
  destruct (deliverAll before spawned) as [i p q tw sw]; simpl in *; subst.
  unfold deliverAll, deliver, handle, write; simpl.
  rewrite (oscOf_first_marker pre post Hpre).
  rewrite bool_decide_true by done. done.
Qed.

Lemma marker_detected_witness :
  isInteractive
    (deliverAll ([TerminalData "x"; ProcessOutput "booting"]
                 ++ [ProcessOutput ("ready " +:+ marker +:+ "$ ")]) spawned)
  = true ∧
  shellWrites
    (deliverAll ([TerminalData "x"; ProcessOutput "booting"]
                 ++ [ProcessOutput ("ready " +:+ marker +:+ "$ ")]) spawned)
  = [mkWrite Bootstrap bootstrapCommand].
Proof.
  apply (marker_detected [TerminalData "x"; ProcessOutput "booting"]
           "ready " "$ "); reflexivity.
Defined.

(** X11. What the regular expression captures: a chunk yields a status
    exactly when it holds some sequence [ESC ]654; status BEL] with a
    non-empty status free of BEL; the status returned is non-empty, free
    of BEL and stands in the chunk between the head and a BEL. *)
Theorem osc_status_characterised (data : string) :
  (is_Some (oscOf data) ↔
   ∃ pre status post,
     status ≠ EmptyString ∧ belFree status ∧
     data = pre +:+ oscHead +:+ status +:+ String BEL post) ∧
  (∀ status,
     oscOf data = Some status →
     status ≠ EmptyString ∧ belFree status ∧
     ∃ pre post, data = pre +:+ oscHead +:+ status +:+ String BEL post).
Proof.
  split; [split|].
  - intros [g Hg]. destruct (oscOf_sound _ _ Hg) as (Hne & Hfree & pre & post & ->).
    by exists pre, g, post.
  - intros (pre & g & post & Hne & Hfree & ->). by apply oscOf_complete.
  - intros g. apply oscOf_sound.
Qed.

End ShellExtras.

(** ** Document store: frames, commutation and sequences of edits *)

Section StoreMore.

Import Store Edits.

Lemma complete_onChange sel content e :
  complete (onChange sel content) e
  = writeFile sel content (setDocuments (changeUpdater sel content) e).
Proof. reflexivity. Qed.

Lemma editAll_snoc edits x e : editAll (edits ++ [x]) e = edit (editAll edits e) x.
Proof. unfold editAll. by rewrite foldl_app. Qed.

Lemma editAll_writes edits e :
  writeFileCalls (editAll edits e) = writeFileCalls e ++ edits.
Proof.
  induction edits as [|[sel c] edits IH] using rev_ind.
  - simpl. by rewrite app_nil_r.
  - rewrite editAll_snoc. unfold edit. rewrite complete_onChange. simpl.
    by rewrite IH, app_assoc.
Qed.

Lemma editAll_last edits e path content :
  last (editsOf path edits) = Some (path, content) →
  documents (editAll edits e) !! path ≫= value = Some content.
Proof.
  induction edits as [|[sel c] edits IH] using rev_ind; [done|].
  unfold editsOf in *. rewrite filter_app, editAll_snoc.
  unfold edit. rewrite complete_onChange. simpl. unfold changeUpdater.
  destruct (decide (sel = path)) as [->|Hne].
  - rewrite filter_cons_True by done. rewrite filter_nil, last_snoc.
    intros [= ->]. by rewrite lookup_insert_eq.
  - rewrite filter_cons_False by done. rewrite filter_nil, app_nil_r.
    intros Hl. rewrite lookup_insert_ne by done. by apply IH.
Qed.

Lemma editAll_untouched edits e path :
  path ∉ edits.*1 → documents (editAll edits e) !! path = documents e !! path.
Proof.
  induction edits as [|[sel c] edits IH] using rev_ind; [done|].
  rewrite fmap_app, editAll_snoc. intros Hp.
  apply not_elem_of_app in Hp as [Hp1 Hp2].
  apply not_elem_of_cons in Hp2 as [Hp2 _]. simpl in Hp2.
  unfold edit. rewrite complete_onChange. simpl. unfold changeUpdater.
  rewrite lookup_insert_ne by done. by apply IH.
Qed.

Lemma foldl_setDocuments (fs : list (Documents → Documents)) e :
  foldl (λ e' piece, piece e') e (setDocuments <$> fs)
  = {| documents := foldl (λ d f, f d) (documents e) fs;
       rendered := rendered e;
       writeFileCalls := writeFileCalls e |}.
Proof.
  revert e. induction fs as [|f fs IH]; intros e; simpl; [by destruct e|].
  by rewrite IH.
Qed.

Lemma foldl_writeFile (ws : list Edit) e :
  foldl (λ e' piece, piece e') e ((λ x : Edit, writeFile x.1 x.2) <$> ws)
  = {| documents := documents e; rendered := rendered e;
       writeFileCalls := writeFileCalls e ++ ws |}.
Proof.
  revert e. induction ws as [|[sel c] ws IH]; intros e; simpl.
  - rewrite app_nil_r. by destruct e.
  - rewrite IH. simpl. by rewrite <- app_assoc.
Qed.

Lemma editAll_documents edits e :
  documents (editAll edits e)
  = foldl (λ d f, f d) (documents e)
      ((λ x : Edit, changeUpdater x.1 x.2) <$> edits).
Proof.
  induction edits as [|[sel c] edits IH] using rev_ind; [done|].
  rewrite editAll_snoc, fmap_app, foldl_app. simpl. by rewrite <- IH.
Qed.

Lemma editAll_rendered edits e : rendered (editAll edits e) = rendered e.
Proof.
  induction edits as [|[sel c] edits IH] using rev_ind; [done|].
  by rewrite editAll_snoc.
Qed.

Lemma editAllWaiting_editAll edits e : editAllWaiting edits e = editAll edits e.
Proof.
  unfold editAllWaiting. rewrite foldl_app.
  rewrite (list_fmap_compose (λ x : Edit, changeUpdater x.1 x.2) setDocuments).
  rewrite foldl_setDocuments, foldl_writeFile. simpl.
  rewrite <- editAll_documents, <- editAll_writes, <- (editAll_rendered edits e).
  by destruct (editAll edits e).
Qed.

End StoreMore.

Section StoreExtras.

Import Store Edits.

(** X12. [onChange] touches one field of one document: every other path
    keeps its document, and the selected file's document keeps its file
    path, loading flag and scroll position and takes the new content as
    value.  When the store has no document for the selected file, one is
    created that has the value and nothing else. *)
Theorem change_frame (selectedFile content : string) (e : Editor) :
  let e' := complete (onChange selectedFile content) e in
  (∀ path, path ≠ selectedFile →
           documents e' !! path = documents e !! path) ∧
  documents e' !! selectedFile
  = Some {| filePath := documents e !! selectedFile ≫= filePath;
            loading := documents e !! selectedFile ≫= loading;
            value := Some content;
            scroll := documents e !! selectedFile ≫= scroll |}.
Proof.
  intros e'. subst e'. rewrite complete_onChange. simpl.
  unfold changeUpdater, spread. split.
  - intros path Hne. by rewrite lookup_insert_ne.
  - rewrite lookup_insert_eq. by destruct (documents e !! selectedFile).
Qed.

(** X13. The handlers never drop a document: after [onChange] or
    [onScroll] the store has the paths it had, and the selected file. *)
Theorem paths_kept (selectedFile content : string) (pos : ScrollPosition)
    (e : Editor) :
  dom (documents (complete (onChange selectedFile content) e))
  = ({[ selectedFile ]} ∪ dom (documents e) : gset string) ∧
  dom (documents (onScroll selectedFile pos e))
  = ({[ selectedFile ]} ∪ dom (documents e) : gset string).
Proof.
  rewrite complete_onChange. unfold onScroll. simpl.
  unfold changeUpdater, scrollUpdater. by rewrite !dom_insert_L.
Qed.

(** X14. An edit and a scroll can be handled in either order, whether
    they concern the same file or two different files: the resulting
    store and the requested writes are the same. *)
Theorem change_scroll_commute (file1 file2 content : string)
    (pos : ScrollPosition) (e : Editor) :
  onScroll file2 pos (complete (onChange file1 content) e)
  = complete (onChange file1 content) (onScroll file2 pos e).
Proof.
  rewrite !complete_onChange. unfold onScroll, setDocuments, writeFile. simpl.
  f_equal. unfold changeUpdater, scrollUpdater, spread.
  destruct (decide (file1 = file2)) as [->|Hne].
  - rewrite !lookup_insert_eq, !insert_insert_eq. simpl.
    by destruct (documents e !! file2).
  - rewrite !lookup_insert_ne by done. by apply insert_insert_ne.
Qed.

(** X15. After any sequence of edits, each handled to its end, the
    write-through was requested once per edit, in the order of the edits
    and with their paths and contents; for every file that was edited the
    store holds the content of its last edit, which is also the content of
    the last write requested for it; a file that was not edited keeps its
    document. *)
Theorem edits_in_order (edits : list Edit) (e : Editor) :
  writeFileCalls (editAll edits e) = writeFileCalls e ++ edits ∧
  (∀ path content,
     last (editsOf path edits) = Some (path, content) →
     documents (editAll edits e) !! path ≫= value = Some content) ∧
  (∀ path, path ∉ edits.*1 →
           documents (editAll edits e) !! path = documents e !! path).
Proof.
  split; [apply editAll_writes|]. split.
  - intros path content. apply editAll_last.
  - intros path. apply editAll_untouched.
Qed.

(** X16. Edits made while the container is not yet available end in the
    same store and the same sequence of write requests as edits handled
    one after the other: the store is updated by each call before it
    waits, and the writes are requested in the order of the calls. *)
Theorem waiting_edits_agree (edits : list Edit) (e : Editor) :
  editAllWaiting edits e = editAll edits e.
Proof. apply editAllWaiting_editAll. Qed.

End StoreExtras.

(** ** [stripIndent] *)

Section IndentMore.

Import Indent.

Example stripIndent_indexJs :
  stripIndent indexJsLiteral
  = "document.body.innerHTML = '<h1>Hello, world!</h1>';".
Proof. vm_compute. reflexivity. Qed.

Example minIndent_indexJs : minIndent (slice1 indexJsLiteral) = 6.
Proof. vm_compute. reflexivity. Qed.

Lemma isBlank_isSpace c : isBlank c = true → isSpace c = true.
Proof.
  unfold isBlank, isSpace. rewrite !bool_decide_eq_true, !elem_of_cons.
  intros [->|[->|H]].
  - do 5 right. by left.
  - by left.
  - by apply elem_of_nil in H.
Qed.

Lemma visible_trimStart s : visible (trimStart s) = visible s.
Proof.
  induction s as [|c s IH]; [done|]. cbn [trimStart visible].
  destruct (isSpace c) eqn:Hc; [done|]. cbn [visible]. by rewrite Hc.
Qed.

Lemma visible_trimEnd s : visible (trimEnd s) = visible s.
Proof.
  induction s as [|c s IH]; [done|]. cbn [trimEnd visible].
  destruct (trimEnd s) as [|c' r].
  - cbn [visible] in IH. rewrite <- IH.
    destruct (isSpace c) eqn:Hc; [done|]. cbn [visible]. by rewrite Hc.
  - rewrite <- IH. cbn [visible]. done.
Qed.

Lemma visible_unindent n skip s :
  hasBlanks skip s = true → visible (unindent n skip s) = visible s.
Proof.
  revert skip. induction s as [|c s IH]; intros skip Hskip; [done|].
  cbn [unindent visible]. destruct skip as [|k].
  - cbn [visible].
    assert (visible
              (unindent n
                 (if isLineTerminator c && hasBlanks n s then n else 0) s)
            = visible s) as ->; [|done].
    apply IH. destruct (isLineTerminator c); simpl; [|done].
    by destruct (hasBlanks n s) eqn:E.
  - cbn [hasBlanks] in Hskip. apply andb_true_iff in Hskip as [Hc Hk].
    rewrite (isBlank_isSpace _ Hc). by apply IH.
Qed.

Lemma visible_replaceIndent n s : visible (replaceIndent n s) = visible s.
Proof.
  unfold replaceIndent. apply visible_unindent.
  by destruct (hasBlanks n s) eqn:E.
Qed.

Lemma visible_stripIndent s : visible (stripIndent s) = visible s.
Proof.
  unfold stripIndent, trim. case_bool_decide; [done|].
  by rewrite visible_trimEnd, visible_trimStart, visible_replaceIndent.
Qed.

(** *** The least indentation *)

Lemma foldl_min_least (ms : list string) (a : nat) :
  let r := foldl (λ acc curr, acc `min` String.length curr) a ms in
  (r ≤ a)%nat ∧ Forall (λ m, (r ≤ String.length m)%nat) ms ∧
  (r = a ∨ ∃ m, m ∈ ms ∧ String.length m = r).
Proof.
  revert a. induction ms as [|m ms IH]; intros a; simpl.
  - split; [done|]. split; [done|]. by left.
  - destruct (IH (a `min` String.length m)) as (H1 & H2 & H3).
    split; [lia|]. split.
    + constructor; [lia|done].
    + destruct H3 as [H3|(m' & Hin & Hm')].
      * destruct (Nat.min_spec a (String.length m)) as [[_ Hmin]|[_ Hmin]].
        -- left. lia.
        -- right. exists m. split; [by left|lia].
      * right. exists m'. split; [by right|done].
Qed.

Lemma dropBlanks_blank s c r :
  visible s = EmptyString → dropBlanks s = String c r → isSpace c = true.
Proof.
  induction s as [|c' s IH]; [done|].
  cbn [visible dropBlanks]. destruct (isSpace c') eqn:Hc; [|done].
  intros Hv. destruct (isBlank c'); [by apply IH|]. by intros [= <- _].
Qed.

Lemma indentHere_blank s : visible s = EmptyString → indentHere s = None.
Proof.
  intros Hv. unfold indentHere.
  destruct (dropBlanks s) as [|c r] eqn:E; [done|].
  by rewrite (dropBlanks_blank _ _ _ Hv E).
Qed.

Lemma indents_blank b s : visible s = EmptyString → indents b s = [].
Proof.
  revert b. induction s as [|c s IH]; intros b Hv.
  - cbn [indents]. by destruct b.
  - cbn [indents]. rewrite (indentHere_blank _ Hv).
    cbn [visible] in Hv. destruct (isSpace c); [|done].
    rewrite (IH _ Hv). by destruct b.
Qed.

Lemma minIndent_least s :
  (visible s = EmptyString → minIndent s = 0) ∧
  Forall (λ m, (minIndent s ≤ String.length m)%nat) (indents true s) ∧
  (indents true s ≠ [] →
   ∃ m, m ∈ indents true s ∧ String.length m = minIndent s).
Proof.
  unfold minIndent. split; [|split].
  - intros Hv. by rewrite (indents_blank true s Hv).
  - destruct (indents true s) as [|m ms]; [done|].
    destruct (foldl_min_least ms (String.length m)) as (H1 & H2 & _).
    constructor; done.
  - destruct (indents true s) as [|m ms]; [done|]. intros _.
    destruct (foldl_min_least ms (String.length m)) as (_ & _ & [H3|H3]).
    + exists m. split; [by left|done].
    + destruct H3 as (m' & Hin & Hm'). exists m'. split; [by right|done].
Qed.

(** *** Both ends of a trimmed string *)

Lemma trimStart_head s c r : trimStart s = String c r → isSpace c = false.
Proof.
  induction s as [|c' s IH]; [done|]. cbn [trimStart].
  destruct (isSpace c') eqn:Hc; [done|]. by intros [= <- _].
Qed.

Lemma trimEnd_head c r :
  isSpace c = false → ∃ r', trimEnd (String c r) = String c r'.
Proof.
  intros Hc. cbn [trimEnd]. destruct (trimEnd r); [|eauto].
  rewrite Hc. eauto.
Qed.

Lemma trimEnd_last s r c :
  trimEnd s = r +:+ String c EmptyString → isSpace c = false.
Proof.
  revert r. induction s as [|c' s IH]; intros r.
  - cbn [trimEnd]. by destruct r.
  - cbn [trimEnd]. destruct (trimEnd s) as [|c'' r'] eqn:E.
    + destruct (isSpace c') eqn:Hc; [by destruct r|].
      destruct r as [|x r]; [by intros [= <-]|].
      intros [= _ H]. by destruct r.
    + destruct r as [|x r]; [done|].
      intros [= _ H]. by apply (IH r).
Qed.

Lemma trim_ends s :
  (∀ c r, trim s = String c r → isSpace c = false) ∧
  (∀ r c, trim s = r +:+ String c EmptyString → isSpace c = false).
Proof.
  unfold trim. split.
  - intros c r. destruct (trimStart s) as [|c0 r0] eqn:E; [done|].
    pose proof (trimStart_head _ _ _ E) as Hc0.
    destruct (trimEnd_head c0 r0 Hc0) as [r' ->]. by intros [= <- _].
  - intros r c. apply trimEnd_last.
Qed.

End IndentMore.

Section IndentLines.

Import Indent.

Lemma app_String c (a b : string) : String c a +:+ b = String c (a +:+ b).
Proof. reflexivity. Qed.

Lemma app_Empty (b : string) : EmptyString +:+ b = b.
Proof. reflexivity. Qed.

Lemma take_drop_blanks s : takeBlanks s +:+ dropBlanks s = s.
Proof.
  induction s as [|c s IH]; [done|]. cbn [takeBlanks dropBlanks].
  destruct (isBlank c); [|done]. by rewrite app_String, IH.
Qed.

Lemma allBlank_takeBlanks s : allBlank (takeBlanks s) = true.
Proof.
  induction s as [|c s IH]; [done|]. cbn [takeBlanks].
  destruct (isBlank c) eqn:Hc; [|done]. cbn [allBlank]. by rewrite Hc.
Qed.

Lemma not_space_not_blank c : isSpace c = false → isBlank c = false.
Proof.
  intros Hc. destruct (isBlank c) eqn:Hb; [|done].
  apply isBlank_isSpace in Hb. congruence.
Qed.

Lemma blanks_then_text b c rest :
  allBlank b = true → isBlank c = false →
  takeBlanks (b +:+ String c rest) = b ∧
  dropBlanks (b +:+ String c rest) = String c rest.
Proof.
  intros Hb Hc. induction b as [|x b IH].
  - rewrite app_Empty. cbn [takeBlanks dropBlanks]. by rewrite Hc.
  - cbn [allBlank] in Hb. apply andb_true_iff in Hb as [Hx Hb].
    rewrite app_String. cbn [takeBlanks dropBlanks]. rewrite Hx.
    destruct (IH Hb) as [-> ->]. done.
Qed.

Lemma indentHere_Some s m :
  indentHere s = Some m →
  ∃ c rest, s = m +:+ String c rest ∧ allBlank m = true ∧ isSpace c = false.
Proof.
  unfold indentHere. destruct (dropBlanks s) as [|c rest] eqn:Hd; [done|].
  destruct (isSpace c) eqn:Hc; [done|]. intros [= <-].
  exists c, rest. split; [|split; [apply allBlank_takeBlanks|done]].
  by rewrite <- Hd, take_drop_blanks.
Qed.

Lemma indentHere_text b c rest :
  allBlank b = true → isSpace c = false →
  indentHere (b +:+ String c rest) = Some b.
Proof.
  intros Hb Hc. unfold indentHere.
  destruct (blanks_then_text b c rest Hb (not_space_not_blank _ Hc)) as [-> ->].
  by rewrite Hc.
Qed.

Lemma indents_unfold flag s :
  indents flag s
  = (if flag then option_list (indentHere s) else [])
    ++ match s with
       | EmptyString => []
       | String c s' => indents (isLineTerminator c) s'
       end.
Proof. by destruct s. Qed.

Lemma endsLine_cons x before :
  endsLine (String x before)
  = match before with
    | EmptyString => isLineTerminator x
    | String _ _ => endsLine before
    end.
Proof. reflexivity. Qed.

Lemma indents_sound s flag m :
  m ∈ indents flag s →
  ∃ before c rest,
    s = before +:+ m +:+ String c rest ∧
    (before = EmptyString → flag = true) ∧ endsLine before = true ∧
    allBlank m = true ∧ isSpace c = false.
Proof.
  revert flag. induction s as [|x s IH]; intros flag.
  - rewrite indents_unfold, app_nil_r. destruct flag; [|by intros ?%elem_of_nil].
    by intros ?%elem_of_nil.
  - rewrite indents_unfold. intros [Hin|Hin]%elem_of_app.
    + destruct flag; [|by apply elem_of_nil in Hin].
      destruct (indentHere (String x s)) as [m'|] eqn:Hm;
        [|by apply elem_of_nil in Hin].
      apply list_elem_of_singleton in Hin as ->.
      destruct (indentHere_Some _ _ Hm) as (c & rest & Hs & Hb & Hc).
      exists EmptyString, c, rest. by rewrite app_Empty.
    + destruct (IH _ Hin) as (before & c & rest & -> & Hflag & Hends & Hb & Hc).
      exists (String x before), c, rest. rewrite app_String.
      split; [done|]. split; [done|]. split; [|done].
      rewrite endsLine_cons. destruct before; [by apply Hflag|done].
Qed.

Lemma indents_complete before flag b c rest :
  (before = EmptyString → flag = true) → endsLine before = true →
  allBlank b = true → isSpace c = false →
  b ∈ indents flag (before +:+ b +:+ String c rest).
Proof.
  intros Hflag Hends Hb Hc. revert flag Hflag Hends.
  induction before as [|x before IH]; intros flag Hflag Hends.
  - rewrite app_Empty, indents_unfold, (Hflag eq_refl).
    apply elem_of_app. left. rewrite indentHere_text by done. by left.
  - rewrite app_String, indents_unfold. apply elem_of_app. right.
    rewrite endsLine_cons in Hends. apply IH.
    + intros ->. done.
    + destruct before; done.
Qed.

Lemma indentedLine_indents s b : indentedLine s b ↔ b ∈ indents true s.
Proof.
  split.
  - intros (before & c & rest & -> & Hends & Hb & Hc).
    by apply indents_complete.
  - intros Hin.
    destruct (indents_sound _ _ _ Hin) as (before & c & rest & Hs & _ & H).
    by exists before, c, rest.
Qed.

End IndentLines.

Section IndentExtras.

Import Indent.

(** X17. [stripIndent] removes white space only: the characters of the
    result that are not white space are those of the argument, in the same
    order. *)
Theorem stripIndent_keeps_text (s : string) :
  visible (stripIndent s) = visible s.
Proof. apply visible_stripIndent. Qed.

(** X18. [minIndent] is the least number of leading blanks (spaces and
    tabs) among the lines of the string in which the blanks are followed
    by a character that is not white space: it is at most the indentation
    of every such line, it is the indentation of one of them when there is
    one, and it is [0] when there is none, in particular for a string of
    white space only (the empty string included).  A line whose blanks are
    followed by other white space, such as a no-break space, does not
    count, even if visible text comes later on that line. *)
Theorem minIndent_is_least (s : string) :
  (∀ b, indentedLine s b → (minIndent s ≤ String.length b)%nat) ∧
  ((∃ b, indentedLine s b) →
   ∃ b, indentedLine s b ∧ String.length b = minIndent s) ∧
  ((∀ b, ¬ indentedLine s b) → minIndent s = 0) ∧
  (visible s = EmptyString → minIndent s = 0) ∧
  minIndent nbspLine = 0.
Proof.
  destruct (minIndent_least s) as (Hblank & Hle & Hmin).
  split; [|split; [|split; [|split]]].
  - intros b Hb. apply indentedLine_indents in Hb.
    rewrite Forall_forall in Hle. by apply Hle.
  - intros [b Hb]. apply indentedLine_indents in Hb.
    destruct Hmin as (m & Hin & Hm).
    { intros Hnil. rewrite Hnil in Hb. by apply elem_of_nil in Hb. }
    exists m. split; [by apply indentedLine_indents|done].
  - intros Hnone. unfold minIndent.
    destruct (indents true s) as [|m ms] eqn:E; [done|].
    destruct (Hnone m). apply indentedLine_indents. rewrite E. by left.
  - exact Hblank.
  - vm_compute. reflexivity.
Qed.

Lemma minIndent_is_least_witness :
  (minIndent (slice1 indexJsLiteral) ≤ 6)%nat ∧
  ∃ b, indentedLine (slice1 indexJsLiteral) b
       ∧ String.length b = minIndent (slice1 indexJsLiteral).
Proof.
  assert (indentedLine (slice1 indexJsLiteral) "      ") as Hline.
  { exists EmptyString, "d"%char,
      ("ocument.body.innerHTML = '<h1>Hello, world!</h1>';"
       +:+ String Chars.LF "    ").
    repeat split; vm_compute; reflexivity. }
  destruct (minIndent_is_least (slice1 indexJsLiteral)) as (H1 & H2 & _).
  split.
  - exact (H1 "      " Hline).
  - apply H2. by exists "      ".
Defined.

(** X19. When the text after the first character has a common indentation
    that is not zero, the result of [stripIndent] neither starts nor ends
    with white space. *)
Theorem stripIndent_trimmed (s : string) :
  minIndent (slice1 s) ≠ 0 →
  (∀ c r, stripIndent s = String c r → isSpace c = false) ∧
  (∀ r c, stripIndent s = r +:+ String c EmptyString → isSpace c = false).
Proof.
  intros Hn. unfold stripIndent. rewrite bool_decide_false by done.
  apply trim_ends.
Qed.

Lemma stripIndent_trimmed_witness :
  (∀ c r, stripIndent indexJsLiteral = String c r → isSpace c = false) ∧
  (∀ r c, stripIndent indexJsLiteral = r +:+ String c EmptyString →
          isSpace c = false).
Proof.
  apply (stripIndent_trimmed indexJsLiteral). vm_compute. discriminate.
Defined.

End IndentExtras.

(** ** The hook under user events *)

Section HookMore.

Import Store Hook.

Lemma step_dom s ev :
  selectedFile s ∈ dom (documents (editor s)) →
  dom (documents (editor (step s ev))) = dom (documents (editor s)).
Proof.
  intros Hsel. destruct ev as [path|content|pos]; [done| |];
    cbn [step editor]; [rewrite complete_onChange|unfold onScroll];
    cbn [setDocuments writeFile documents];
    unfold changeUpdater, scrollUpdater; rewrite dom_insert_L;
    by apply subseteq_union_1_L, singleton_subseteq_l.
Qed.

Lemma step_keyed s ev :
  selectedFile s ∈ dom (documents (editor s)) →
  keyed (documents (editor s)) → keyed (documents (editor (step s ev))).
Proof.
  intros Hsel Hk. apply elem_of_dom in Hsel as [d0 Hd0].
  destruct ev as [path|content|pos]; [done| |];
    cbn [step editor]; [rewrite complete_onChange|unfold onScroll];
    cbn [setDocuments writeFile documents];
    unfold changeUpdater, scrollUpdater, spread; rewrite Hd0; simpl;
    intros path d; (destruct (decide (path = selectedFile s)) as [->|Hne];
      [rewrite lookup_insert_eq; intros [= <-]; simpl; by apply Hk
      |rewrite lookup_insert_ne by done; apply Hk]).
Qed.

Lemma steps_invariant evs s :
  selectedFile s ∈ dom (documents (editor s)) →
  Forall (λ path, path ∈ dom (documents (editor s))) (selections evs) →
  dom (documents (editor (steps evs s))) = dom (documents (editor s)) ∧
  selectedFile (steps evs s) ∈ dom (documents (editor s)) ∧
  (keyed (documents (editor s)) → keyed (documents (editor (steps evs s)))).
Proof.
  revert s. induction evs as [|ev evs IH]; intros s Hsel Hevs; [done|].
  change (steps (ev :: evs) s) with (steps evs (step s ev)).
  pose proof (step_dom s ev Hsel) as Hdom.
  assert (selectedFile (step s ev) ∈ dom (documents (editor s))
          ∧ Forall (λ path, path ∈ dom (documents (editor s)))
              (selections evs)) as [Hsel' Hevs'].
  { destruct ev as [path|content|pos]; cbn [selections omap] in Hevs.
    - apply Forall_cons in Hevs as [Hp Hevs]. done.
    - done.
    - done. }
  destruct (IH (step s ev)) as (H1 & H2 & H3).
  - by rewrite Hdom.
  - by rewrite Hdom.
  - rewrite Hdom in H1, H2. split; [done|]. split; [done|].
    intros Hk. apply H3. by apply step_keyed.
Qed.

End HookMore.

Section HookExtras.

Import Store Hook.

(** X20. As long as the files selected are files of the store, the store
    keeps exactly its set of paths through every edit, scroll and
    selection, the document handed to the editor ([documents[selectedFile]])
    is always defined, and if every document was stored under its own
    [filePath] at the start, it still is. *)
Theorem documents_stay_keyed (evs : list UIEvent) (s : State) :
  selectedFile s ∈ dom (documents (editor s)) →
  Forall (λ path, path ∈ dom (documents (editor s))) (selections evs) →
  dom (documents (editor (steps evs s))) = dom (documents (editor s)) ∧
  is_Some (document (steps evs s)) ∧
  (keyed (documents (editor s)) → keyed (documents (editor (steps evs s)))).
Proof.
  intros Hsel Hevs.
  destruct (steps_invariant evs s Hsel Hevs) as (H1 & H2 & H3).
  split; [done|]. split; [|done].
  unfold document. apply elem_of_dom. by rewrite H1.
Qed.

Lemma documents_stay_keyed_witness :
  dom (documents (editor
         (steps [EditorChange "a"; FileSelect "/package.json";
                 EditorScroll (mkScroll 3 0); EditorChange "{}"]
            sampleState)))
  = dom (documents (editor sampleState)) ∧
  is_Some (document
             (steps [EditorChange "a"; FileSelect "/package.json";
                     EditorScroll (mkScroll 3 0); EditorChange "{}"]
                sampleState)).
Proof.
  destruct (documents_stay_keyed
              [EditorChange "a"; FileSelect "/package.json";
               EditorScroll (mkScroll 3 0); EditorChange "{}"]
              sampleState) as (H1 & H2 & _).
  - by compute_done.
  - by compute_done.
  - split; [exact H1|exact H2].
Defined.

End HookExtras.
